(** * A typeahead widget and its suggestion endpoint

    Shallow embedding of
    - [app/routes/api-suggestions.tsx]: the [loader] that filters the fixed
      list [fruits];
    - [app/components/type-ahead.tsx]: the [TypeAhead] component, its two
      effects, [handleSelect] and [handleKeyDown].

    JavaScript strings are modelled as [string], one [ascii] per code unit,
    read as the code units U+0000..U+00FF; on that range the definitions of
    [toLowerCase], [trim], [includes] and [encodeURIComponent] below follow
    ECMAScript. *)

From Stdlib Require Import ZArith Ascii String.
From stdpp Require Import base list strings.

Local Open Scope string_scope.
Local Open Scope list_scope.
Local Open Scope nat_scope.

(** * JavaScript string primitives *)

Module JS.

Definition code (c : ascii) : N := N_of_ascii c.

(** [String.prototype.toLowerCase], one code unit at a time: A..Z and the
    Latin-1 capitals U+00C0..U+00DE (U+00D7, the multiplication sign, is not
    a letter) move up by 32. *)
Definition lowerChar (c : ascii) : ascii :=
  let n := code c in
  if ((65 <=? n) && (n <=? 90)
      || (192 <=? n) && (n <=? 222) && negb (n =? 215))%N
  then ascii_of_N (n + 32) else c.

Fixpoint toLowerCase (s : string) : string :=
  match s with
  | EmptyString => EmptyString
  | String c s' => String (lowerChar c) (toLowerCase s')
  end.

(** WhiteSpace and LineTerminator code units below U+0100:
    TAB, LF, VT, FF, CR, SP, NBSP. *)
Definition isWhiteSpace (c : ascii) : bool :=
  let n := code c in
  ((9 <=? n) && (n <=? 13) || (n =? 32) || (n =? 160))%N.

Fixpoint trimStart (s : string) : string :=
  match s with
  | EmptyString => EmptyString
  | String c s' => if isWhiteSpace c then trimStart s' else s
  end.

Fixpoint trimEnd (s : string) : string :=
  match s with
  | EmptyString => EmptyString
  | String c s' =>
      match trimEnd s' with
      | EmptyString => if isWhiteSpace c then EmptyString else String c EmptyString
      | t => String c t
      end
  end.

(** [String.prototype.trim] *)
Definition trim (s : string) : string := trimEnd (trimStart s).

(** [String.prototype.startsWith] *)
Fixpoint startsWith (s p : string) {struct p} : bool :=
  match p, s with
  | EmptyString, _ => true
  | String a p', String b s' => if Ascii.eqb a b then startsWith s' p' else false
  | String _ _, EmptyString => false
  end.

(** [String.prototype.includes]: is there an index at which [q] occurs. *)
Fixpoint includes (s q : string) : bool :=
  startsWith s q ||
  match s with
  | EmptyString => false
  | String _ s' => includes s' q
  end.

(** A string in boolean position: only the empty string is falsy. *)
Definition truthy (s : string) : bool :=
  match s with EmptyString => false | String _ _ => true end.

(** [a || b] on strings. *)
Definition orElse (a b : string) : string := if truthy a then a else b.

(** [Array.prototype.slice(start, end)] for indices inside [0, 2^53). *)
Definition slice {A} (start stop : nat) (l : list A) : list A :=
  take (stop - start) (drop start l).

(** [encodeURIComponent]: the unreserved marks and alphanumerics stay,
    every other code point is written as the %XX escapes of its UTF-8
    bytes. *)
Definition isUnreserved (c : ascii) : bool :=
  let n := code c in
  ((48 <=? n) && (n <=? 57) || (65 <=? n) && (n <=? 90)
   || (97 <=? n) && (n <=? 122)
   || (n =? 45) || (n =? 95) || (n =? 46) || (n =? 33) || (n =? 126)
   || (n =? 42) || (n =? 39) || (n =? 40) || (n =? 41))%N.

Definition hexDigit (n : N) : ascii :=
  if (n <? 10)%N then ascii_of_N (48 + n) else ascii_of_N (55 + n).

Definition percent (byte : N) : string :=
  String "%" (String (hexDigit (byte / 16)) (String (hexDigit (byte mod 16)) "")).

Definition utf8 (cp : N) : list N :=
  if (cp <? 128)%N then [cp]
  else [N.lor 192 (N.shiftr cp 6); N.lor 128 (N.land cp 63)].

Fixpoint encodeURIComponent (s : string) : string :=
  match s with
  | EmptyString => EmptyString
  | String c s' =>
      (if isUnreserved c then String c ""
       else foldr (λ b acc, percent b +:+ acc) "" (utf8 (code c)))
      +:+ encodeURIComponent s'
  end.

End JS.

(** * The suggestion endpoint: [app/routes/api-suggestions.tsx] *)

Record Suggestion := { id : string; value : string }.

Definition mk (i v : string) : Suggestion := {| id := i; value := v |}.

Definition fruits : list Suggestion :=
  [ mk "apple" "Apple"; mk "banana" "Banana"; mk "blackberry" "Blackberry";
    mk "blueberry" "Blueberry"; mk "dragonfruit" "Dragonfruit";
    mk "grapefruit" "Grapefruit"; mk "kiwi" "Kiwi"; mk "lemon" "Lemon";
    mk "lime" "Lime"; mk "lychee" "Lychee"; mk "mango" "Mango";
    mk "nectarine" "Nectarine"; mk "orange" "Orange"; mk "papaya" "Papaya";
    mk "passionfruit" "Passionfruit"; mk "peach" "Peach";
    mk "pineapple" "Pineapple"; mk "raspberry" "Raspberry";
    mk "strawberry" "Strawberry"; mk "watermelon" "Watermelon" ].

(** [url.searchParams]: the decoded name/value pairs of the query string, in
    order; [get] answers the first value stored under a name, or null. *)
Definition URLSearchParams := list (string * string).

Fixpoint searchParams_get (name : string) (ps : URLSearchParams) : option string :=
  match ps with
  | [] => None
  | (k, v) :: ps' => if String.eqb k name then Some v else searchParams_get name ps'
  end.

Record Request := { searchParams : URLSearchParams }.

(** What the loader hands back: [new Response("[]", ...)] carries text,
    [Response.json(...)] carries the serialised array. *)
Inductive Body :=
| Text (s : string)
| Json (l : list Suggestion).

Record Response := {
  status : nat;
  headers : list (string * string);
  body : Body
}.

(** [url.searchParams.get("q")?.trim().toLowerCase() || ""] *)
Definition loader_query (request : Request) : string :=
  JS.orElse
    (match searchParams_get "q" (searchParams request) with
     | Some q => JS.toLowerCase (JS.trim q)
     | None => ""    (* undefined || "" *)
     end)
    "".

Definition loader (request : Request) : Response :=
  let query := loader_query request in
  if negb (JS.truthy query) then
    {| status := 200; headers := []; body := Text "[]" |}
  else
    let suggestions :=
      JS.slice 0 10
        (List.filter (λ fruit, JS.includes (JS.toLowerCase (value fruit)) query) fruits) in
    {| status := 200;
       headers := [("Content-Type", "application/json")];
       body := Json suggestions |}.

(** The array a client reads out of a response body ([response.json()]);
    the only text body the loader produces is the empty array. *)
Definition response_json (r : Response) : option (list Suggestion) :=
  match body r with
  | Json l => Some l
  | Text s => if String.eqb s "[]" then Some [] else None
  end.

(** A response signals an error when its status is outside 200..299. *)
Definition response_ok (r : Response) : bool :=
  (200 <=? status r) && (status r <=? 299).

(** * The widget: [app/components/type-ahead.tsx]

    A value of [TypeAhead] is the state of a mounted component between two
    events: the three [useState] cells, the [fetcher] object, what React
    remembers of the two effects, and the part of the browser the component
    talks to (clock, timer queue, input focus, the host's [onSelect]).

    [useFetcher] gives the component an object that it builds anew when
    the router changes the fetcher, that is when a load starts and when its
    answer arrives, and that it keeps from render to render otherwise. The
    router holds the data of the last answer itself, and every new object
    carries that data. An assignment to [fetcher.data] therefore writes the
    field of the current object only: it causes no render, and it lasts
    until the next object is built. [fetcher.load] aborts the load in
    flight, so that at most one load is open and the answer to a superseded
    load is dropped. *)

(** The array held in [fetcher.data]. [rid] stands for the identity of the
    array object: a dependency list compares with [Object.is], and every
    decoded response is a new array. *)
Record Results := { rid : nat; items : list Suggestion }.

(** The two closures handed to [setTimeout]. *)
Inductive Callback :=
| LoadSuggestions (q : string)  (* line 41, [query] captured by the effect *)
| Unfocus.                      (* line 125, [() => setIsFocused(false)] *)

Record Timer := { tid : nat; due : nat; callback : Callback }.

(** [fetcher.state]; the component never submits. *)
Inductive FetcherState := Idle | Loading.

Record TypeAhead := {
  (* props *)
  hasOnSelect : bool;         (* whether the host passed [onSelect] *)
  (* useState *)
  isFocused : bool;
  query : string;
  selectedIndex : Z;
  (* useFetcher *)
  data : option Results;      (* [fetcher.data] of the current object, [None] is undefined *)
  state : FetcherState;       (* [fetcher.state] *)
  held : option Results;      (* the data the router holds for the fetcher *)
  requests : list string;     (* every href given to [fetcher.load], oldest first *)
  nextRid : nat;
  (* useEffect *)
  depQuery : string;          (* [query] as of the last run of the first effect *)
  depData : option nat;       (* [fetcher.data] as of the last run of the second effect *)
  cleanup : option nat;       (* the timer the first effect's cleanup clears, if it returned one *)
  (* browser *)
  now : nat;                  (* milliseconds *)
  timers : list Timer;        (* scheduled and not yet run, in order of registration *)
  nextTid : nat;
  inputFocused : bool;        (* the input is the active element *)
  selected : list Suggestion  (* arguments of the [onSelect] calls, oldest first *)
}.

Definition set_isFocused (x : bool) (w : TypeAhead) : TypeAhead :=
  {| hasOnSelect := hasOnSelect w; isFocused := x; query := query w; selectedIndex := selectedIndex w;
     data := data w; state := state w; held := held w; requests := requests w; nextRid := nextRid w;
     depQuery := depQuery w; depData := depData w; cleanup := cleanup w;
     now := now w; timers := timers w; nextTid := nextTid w; inputFocused := inputFocused w; selected := selected w |}.

Definition set_query (x : string) (w : TypeAhead) : TypeAhead :=
  {| hasOnSelect := hasOnSelect w; isFocused := isFocused w; query := x; selectedIndex := selectedIndex w;
     data := data w; state := state w; held := held w; requests := requests w; nextRid := nextRid w;
     depQuery := depQuery w; depData := depData w; cleanup := cleanup w;
     now := now w; timers := timers w; nextTid := nextTid w; inputFocused := inputFocused w; selected := selected w |}.

Definition set_selectedIndex (x : Z) (w : TypeAhead) : TypeAhead :=
  {| hasOnSelect := hasOnSelect w; isFocused := isFocused w; query := query w; selectedIndex := x;
     data := data w; state := state w; held := held w; requests := requests w; nextRid := nextRid w;
     depQuery := depQuery w; depData := depData w; cleanup := cleanup w;
     now := now w; timers := timers w; nextTid := nextTid w; inputFocused := inputFocused w; selected := selected w |}.

Definition set_data (x : option Results) (w : TypeAhead) : TypeAhead :=
  {| hasOnSelect := hasOnSelect w; isFocused := isFocused w; query := query w; selectedIndex := selectedIndex w;
     data := x; state := state w; held := held w; requests := requests w; nextRid := nextRid w;
     depQuery := depQuery w; depData := depData w; cleanup := cleanup w;
     now := now w; timers := timers w; nextTid := nextTid w; inputFocused := inputFocused w; selected := selected w |}.

Definition set_state (x : FetcherState) (w : TypeAhead) : TypeAhead :=
  {| hasOnSelect := hasOnSelect w; isFocused := isFocused w; query := query w; selectedIndex := selectedIndex w;
     data := data w; state := x; held := held w; requests := requests w; nextRid := nextRid w;
     depQuery := depQuery w; depData := depData w; cleanup := cleanup w;
     now := now w; timers := timers w; nextTid := nextTid w; inputFocused := inputFocused w; selected := selected w |}.

Definition set_held (x : option Results) (w : TypeAhead) : TypeAhead :=
  {| hasOnSelect := hasOnSelect w; isFocused := isFocused w; query := query w; selectedIndex := selectedIndex w;
     data := data w; state := state w; held := x; requests := requests w; nextRid := nextRid w;
     depQuery := depQuery w; depData := depData w; cleanup := cleanup w;
     now := now w; timers := timers w; nextTid := nextTid w; inputFocused := inputFocused w; selected := selected w |}.

Definition set_requests (x : list string) (w : TypeAhead) : TypeAhead :=
  {| hasOnSelect := hasOnSelect w; isFocused := isFocused w; query := query w; selectedIndex := selectedIndex w;
     data := data w; state := state w; held := held w; requests := x; nextRid := nextRid w;
     depQuery := depQuery w; depData := depData w; cleanup := cleanup w;
     now := now w; timers := timers w; nextTid := nextTid w; inputFocused := inputFocused w; selected := selected w |}.

Definition set_nextRid (x : nat) (w : TypeAhead) : TypeAhead :=
  {| hasOnSelect := hasOnSelect w; isFocused := isFocused w; query := query w; selectedIndex := selectedIndex w;
     data := data w; state := state w; held := held w; requests := requests w; nextRid := x;
     depQuery := depQuery w; depData := depData w; cleanup := cleanup w;
     now := now w; timers := timers w; nextTid := nextTid w; inputFocused := inputFocused w; selected := selected w |}.

Definition set_depQuery (x : string) (w : TypeAhead) : TypeAhead :=
  {| hasOnSelect := hasOnSelect w; isFocused := isFocused w; query := query w; selectedIndex := selectedIndex w;
     data := data w; state := state w; held := held w; requests := requests w; nextRid := nextRid w;
     depQuery := x; depData := depData w; cleanup := cleanup w;
     now := now w; timers := timers w; nextTid := nextTid w; inputFocused := inputFocused w; selected := selected w |}.

Definition set_depData (x : option nat) (w : TypeAhead) : TypeAhead :=
  {| hasOnSelect := hasOnSelect w; isFocused := isFocused w; query := query w; selectedIndex := selectedIndex w;
     data := data w; state := state w; held := held w; requests := requests w; nextRid := nextRid w;
     depQuery := depQuery w; depData := x; cleanup := cleanup w;
     now := now w; timers := timers w; nextTid := nextTid w; inputFocused := inputFocused w; selected := selected w |}.

Definition set_cleanup (x : option nat) (w : TypeAhead) : TypeAhead :=
  {| hasOnSelect := hasOnSelect w; isFocused := isFocused w; query := query w; selectedIndex := selectedIndex w;
     data := data w; state := state w; held := held w; requests := requests w; nextRid := nextRid w;
     depQuery := depQuery w; depData := depData w; cleanup := x;
     now := now w; timers := timers w; nextTid := nextTid w; inputFocused := inputFocused w; selected := selected w |}.

Definition set_now (x : nat) (w : TypeAhead) : TypeAhead :=
  {| hasOnSelect := hasOnSelect w; isFocused := isFocused w; query := query w; selectedIndex := selectedIndex w;
     data := data w; state := state w; held := held w; requests := requests w; nextRid := nextRid w;
     depQuery := depQuery w; depData := depData w; cleanup := cleanup w;
     now := x; timers := timers w; nextTid := nextTid w; inputFocused := inputFocused w; selected := selected w |}.

Definition set_timers (x : list Timer) (w : TypeAhead) : TypeAhead :=
  {| hasOnSelect := hasOnSelect w; isFocused := isFocused w; query := query w; selectedIndex := selectedIndex w;
     data := data w; state := state w; held := held w; requests := requests w; nextRid := nextRid w;
     depQuery := depQuery w; depData := depData w; cleanup := cleanup w;
     now := now w; timers := x; nextTid := nextTid w; inputFocused := inputFocused w; selected := selected w |}.

Definition set_nextTid (x : nat) (w : TypeAhead) : TypeAhead :=
  {| hasOnSelect := hasOnSelect w; isFocused := isFocused w; query := query w; selectedIndex := selectedIndex w;
     data := data w; state := state w; held := held w; requests := requests w; nextRid := nextRid w;
     depQuery := depQuery w; depData := depData w; cleanup := cleanup w;
     now := now w; timers := timers w; nextTid := x; inputFocused := inputFocused w; selected := selected w |}.

Definition set_inputFocused (x : bool) (w : TypeAhead) : TypeAhead :=
  {| hasOnSelect := hasOnSelect w; isFocused := isFocused w; query := query w; selectedIndex := selectedIndex w;
     data := data w; state := state w; held := held w; requests := requests w; nextRid := nextRid w;
     depQuery := depQuery w; depData := depData w; cleanup := cleanup w;
     now := now w; timers := timers w; nextTid := nextTid w; inputFocused := x; selected := selected w |}.

Definition set_selected (x : list Suggestion) (w : TypeAhead) : TypeAhead :=
  {| hasOnSelect := hasOnSelect w; isFocused := isFocused w; query := query w; selectedIndex := selectedIndex w;
     data := data w; state := state w; held := held w; requests := requests w; nextRid := nextRid w;
     depQuery := depQuery w; depData := depData w; cleanup := cleanup w;
     now := now w; timers := timers w; nextTid := nextTid w; inputFocused := inputFocused w; selected := x |}.

(** ** Browser primitives *)

Definition isLoad (cb : Callback) : bool :=
  match cb with LoadSuggestions _ => true | Unfocus => false end.

Definition setTimeout (cb : Callback) (delay : nat) (w : TypeAhead) : nat * TypeAhead :=
  let t := {| tid := nextTid w; due := now w + delay; callback := cb |} in
  (nextTid w, set_nextTid (S (nextTid w)) (set_timers (timers w ++ [t]) w)).

Definition clearTimeout (t : nat) (w : TypeAhead) : TypeAhead :=
  set_timers (filter (λ x, tid x ≠ t) (timers w)) w.

(** [inputRef.current?.blur()]: a focused input loses focus and its [onBlur]
    (line 125) runs; on an input without focus nothing happens. *)
Definition onBlur (w : TypeAhead) : TypeAhead := snd (setTimeout Unfocus 200 w).

Definition blur (w : TypeAhead) : TypeAhead :=
  if inputFocused w then onBlur (set_inputFocused false w) else w.

(** [fetcher.state === "loading"] *)
Definition isLoading (w : TypeAhead) : bool :=
  match state w with Loading => true | Idle => false end.

(** [fetcher.load(href)]: the router aborts the load in flight, if there is
    one, and starts this one; the fetcher object built for the new state
    carries the data the router holds. *)
Definition fetcher_load (href : string) (w : TypeAhead) : TypeAhead :=
  set_data (held w) (set_state Loading (set_requests (requests w ++ [href]) w)).

Definition suggestionsHref (q : string) : string :=
  "/api/suggestions?q=" +:+ JS.encodeURIComponent q.

(** [fetcher.data?.length], with undefined read as 0 where only its
    truthiness is used. *)
Definition dataLength (w : TypeAhead) : nat :=
  match data w with Some r => length (items r) | None => 0 end.

(** ** Effects and rendering *)

(** Lines 35-46, the body and the cleanup of the debounce effect. *)
Definition debounceEffect (w : TypeAhead) : TypeAhead :=
  if negb (JS.truthy (JS.trim (query w))) then
    set_cleanup None (set_data None w)
  else
    let '(timeout, w') := setTimeout (LoadSuggestions (query w)) 300 w in
    set_cleanup (Some timeout) w'.

Definition debounceCleanup (w : TypeAhead) : TypeAhead :=
  match cleanup w with
  | Some timeout => clearTimeout timeout w
  | None => w
  end.

(** Lines 51-53. *)
Definition resetEffect (w : TypeAhead) : TypeAhead := set_selectedIndex (-1) w.

(** One render with its passive effects. Both dependency lists are
    evaluated while rendering, so the second one sees [fetcher.data] as it
    was before the first effect's body ran; an effect runs when its
    dependency list differs from the one of its last run. *)
Definition commit (w : TypeAhead) : TypeAhead :=
  let seen := rid <$> data w in
  let w1 :=
    if decide (query w = depQuery w) then w
    else set_depQuery (query w) (debounceEffect (debounceCleanup w)) in
  if decide (seen = depData w1) then w1
  else set_depData seen (resetEffect w1).

(** Rendering until no state is left to apply: the only state an effect sets
    is [selectedIndex], and the render that follows can only set it to the
    same -1. *)
Definition render (w : TypeAhead) : TypeAhead :=
  let w1 := commit w in
  if decide (selectedIndex w1 = selectedIndex w) then w1 else commit w1.

(** After an event handler: React renders again only if some [useState]
    cell changed; assigning to [fetcher.data] is not a state update. *)
Definition update (before after : TypeAhead) : TypeAhead :=
  if decide (isFocused after = isFocused before
             ∧ query after = query before
             ∧ selectedIndex after = selectedIndex before)
  then after else render after.

(** The component right after mounting: the first render ran both effects,
    the first on an empty query, the second on a highlight already at -1. *)
Definition mount (onSelect : bool) : TypeAhead :=
  {| hasOnSelect := onSelect; isFocused := false; query := ""; selectedIndex := -1;
     data := None; state := Idle; held := None; requests := []; nextRid := 0;
     depQuery := ""; depData := None; cleanup := None;
     now := 0; timers := []; nextTid := 0; inputFocused := false; selected := [] |}.

(** ** Handlers *)

Inductive JsError := TypeError.

Inductive Completion (A : Type) :=
| Normal (a : A)
| Throw (e : JsError).
Arguments Normal {A} a.
Arguments Throw {A} e.

(** Lines 61-66. The argument is what indexing [fetcher.data] gave: reading
    [.value] of undefined throws before any state is set. *)
Definition handleSelect (suggestion : option Suggestion) (w : TypeAhead) : Completion TypeAhead :=
  match suggestion with
  | None => Throw TypeError
  | Some s =>
      let w := set_query (value s) w in
      let w := set_isFocused false w in
      let w := set_selectedIndex (-1) w in
      Normal (if hasOnSelect w then set_selected (selected w ++ [s]) w else w)
  end.

Record KeyboardEvent := { key : string; defaultPrevented : bool }.

Definition preventDefault (event : KeyboardEvent) : KeyboardEvent :=
  {| key := key event; defaultPrevented := true |}.

(** [fetcher.data[i]] for a number [i]. *)
Definition dataAt (i : Z) (w : TypeAhead) : option Suggestion :=
  match data w with
  | Some r => if (0 <=? i)%Z then items r !! Z.to_nat i else None
  | None => None
  end.

(** Lines 78-112. *)
Definition handleKeyDown (event : KeyboardEvent) (w : TypeAhead)
  : Completion (KeyboardEvent * TypeAhead) :=
  if negb (JS.truthy (JS.trim (query w))) || (dataLength w =? 0) then Normal (event, w)
  else if String.eqb (key event) "ArrowDown" then
    let event := preventDefault event in
    let prev := selectedIndex w in
    Normal (event,
            set_selectedIndex
              (if (prev <? Z.of_nat (dataLength w) - 1)%Z then prev + 1 else prev)%Z w)
  else if String.eqb (key event) "ArrowUp" then
    let event := preventDefault event in
    let prev := selectedIndex w in
    Normal (event, set_selectedIndex (if (prev >? 0)%Z then prev - 1 else prev)%Z w)
  else if String.eqb (key event) "Enter" then
    let event := preventDefault event in
    let picked :=
      if (selectedIndex w >=? 0)%Z then handleSelect (dataAt (selectedIndex w) w) w
      else if 0 <? dataLength w then handleSelect (dataAt 0 w) w
      else Normal w in
    match picked with
    | Normal w' => Normal (event, blur w')
    | Throw e => Throw e
    end
  else if String.eqb (key event) "Escape" then
    let event := preventDefault event in
    let w := set_isFocused false w in
    let w := set_selectedIndex (-1) w in
    Normal (event, blur w)
  else Normal (event, w).

(** Lines 130 and 134: when the dropdown is in the document. *)
Definition dropdownVisible (w : TypeAhead) : bool :=
  isFocused w && JS.truthy (JS.trim (query w)) && (0 <? dataLength w).

(** ** Timers *)

(** The timer to run next: the smallest [due], the first registered among
    equals. *)
Fixpoint earliest (ts : list Timer) : option Timer :=
  match ts with
  | [] => None
  | t :: ts' =>
      match earliest ts' with
      | Some u => if due u <? due t then Some u else Some t
      | None => Some t
      end
  end.

Definition runCallback (cb : Callback) (w : TypeAhead) : TypeAhead :=
  match cb with
  | LoadSuggestions q => render (fetcher_load (suggestionsHref q) w)
  | Unfocus => update w (set_isFocused false w)
  end.

(** Let the clock reach [until], running the timers that come due on the
    way, one per unit of [fuel]. *)
Fixpoint runTimers (fuel : nat) (until : nat) (w : TypeAhead) : TypeAhead :=
  match fuel with
  | 0 => w
  | S fuel' =>
      match earliest (timers w) with
      | Some t =>
          if due t <=? until then
            runTimers fuel' until
              (runCallback (callback t) (set_now (max (now w) (due t)) (clearTimeout (tid t) w)))
          else set_now until w
      | None => set_now until w
      end
  end.

Definition elapse (ms : nat) (w : TypeAhead) : TypeAhead :=
  runTimers (S (length (timers w))) (now w + ms) w.

(** ** Events *)

Inductive Event :=
| Change (text : string)          (* [onChange], [e.target.value] is [text] *)
| KeyDown (key : string)          (* [onKeyDown] *)
| Focus                           (* [onFocus] *)
| Blur                            (* [onBlur] *)
| Click (i : nat)                 (* [onClick] of the [i]-th entry *)
| Elapse (ms : nat)               (* time passes *)
| Respond (l : list Suggestion).  (* the load in flight is answered with [l] *)

(** The answer to the load in flight: the router keeps the decoded array,
    the fetcher is idle again, and the object built for the new state
    carries the array. *)
Definition respond (l : list Suggestion) (w : TypeAhead) : TypeAhead :=
  let r := {| rid := nextRid w; items := l |} in
  set_state Idle
    (set_nextRid (S (nextRid w)) (set_held (Some r) (set_data (Some r) w))).

Definition dispatch (e : Event) (w : TypeAhead) : Completion TypeAhead :=
  match e with
  | Change text => Normal (update w (set_query text w))
  | KeyDown k =>
      match handleKeyDown {| key := k; defaultPrevented := false |} w with
      | Normal (_, w') => Normal (update w w')
      | Throw e => Throw e
      end
  | Focus => Normal (update w (set_isFocused true (set_inputFocused true w)))
  | Blur => Normal (onBlur (set_inputFocused false w))
  | Click i =>
      match handleSelect (dataAt (Z.of_nat i) w) w with
      | Normal w' => Normal (update w w')
      | Throw e => Throw e
      end
  | Elapse ms => Normal (elapse ms w)
  | Respond l => Normal (render (respond l w))
  end.

(** When the browser can deliver an event: keys and edits go to the focused
    input, an edit always brings a new text, an entry can be clicked while
    the list is shown, an answer needs a load in flight (a load that a
    later one superseded was aborted, its answer is no event). *)
Definition enabled (e : Event) (w : TypeAhead) : bool :=
  match e with
  | Change text => inputFocused w && negb (String.eqb text (query w))
  | KeyDown _ => inputFocused w
  | Focus => negb (inputFocused w)
  | Blur => inputFocused w
  | Click i => dropdownVisible w && negb (isLoading w) && (i <? dataLength w)
  | Elapse _ => true
  | Respond _ => isLoading w
  end.

Inductive reachable : TypeAhead → Prop :=
| reachable_mount onSelect : reachable (mount onSelect)
| reachable_step e w w' :
    reachable w → enabled e w = true → dispatch e w = Normal w' → reachable w'.

(** A script of events played from a state; [None] when an event is not
    enabled or its handler throws. *)
Fixpoint play (es : list Event) (w : TypeAhead) : option TypeAhead :=
  match es with
  | [] => Some w
  | e :: es' =>
      if enabled e w then
        match dispatch e w with
        | Normal w' => play es' w'
        | Throw _ => None
        end
      else None
  end.

(** * Vocabulary of the statements *)

(** [q] occurs in [s] as a substring. *)
Definition occursIn (q s : string) : Prop :=
  ∃ pre post, s = pre +:+ q +:+ post.

(** A string made of white space only (the empty string is one). *)
Fixpoint whiteSpaceOnly (s : string) : bool :=
  match s with
  | EmptyString => true
  | String c s' => JS.isWhiteSpace c && whiteSpaceOnly s'
  end.

(** The fields no effect writes. *)
Definition sameView (w w' : TypeAhead) : Prop :=
  hasOnSelect w' = hasOnSelect w ∧ isFocused w' = isFocused w
  ∧ query w' = query w ∧ state w' = state w ∧ requests w' = requests w
  ∧ nextRid w' = nextRid w ∧ now w' = now w
  ∧ inputFocused w' = inputFocused w ∧ selected w' = selected w.

Definition threeResults : list Suggestion :=
  [mk "banana" "Banana"; mk "mango" "Mango"; mk "orange" "Orange"].

(** The widget after focusing the input, typing "an", waiting out the
    debounce and receiving the three matches. *)
Definition openWithThree : TypeAhead :=
  default (mount true)
    (play [Focus; Change "an"; Elapse 300; Respond threeResults] (mount true)).

(** The second effect has caught up with the results on display. *)
Definition settled (w : TypeAhead) : Prop :=
  ∀ r, data w = Some r → depData w = Some (rid r).

(** What a selection of [s] leaves behind in [w'], coming from [w]. *)
Definition selectionOf (s : Suggestion) (w w' : TypeAhead) : Prop :=
  query w' = value s
  ∧ isFocused w' = false ∧ dropdownVisible w' = false
  ∧ selectedIndex w' = (-1)%Z
  ∧ selected w' = selected w ++ (if hasOnSelect w then [s] else []).

(** Timer ids are below the next id to hand out; a pending debounce timer is
    the one the effect's cleanup will clear, and it carries the query of the
    effect's last run, which is not blank; the other timers are not the one
    the cleanup clears. *)
Definition timersInv (ts : list Timer) (next : nat) (clean : option nat) (dq : string)
  : Prop :=
  (∀ t, t ∈ ts → tid t < next)
  ∧ (∀ c, clean = Some c → c < next)
  ∧ (∀ t, t ∈ ts →
       if isLoad (callback t)
       then clean = Some (tid t)
            ∧ callback t = LoadSuggestions dq
            ∧ JS.trim dq ≠ ""
       else clean ≠ Some (tid t)).

Definition timersOk (w : TypeAhead) : Prop :=
  timersInv (timers w) (nextTid w) (cleanup w) (depQuery w).

(** Array identities are below the next one to hand out; once the second
    effect has seen the array on display, the highlight is -1 or one of its
    indices. *)
Definition resultsInv (dd : option nat) (next : nat) (d : option Results) (i : Z)
  : Prop :=
  (∀ k, dd = Some k → k < next)
  ∧ (∀ r, d = Some r → rid r < next)
  ∧ (∀ r, d = Some r → dd = Some (rid r) →
       i = -1 ∨ 0 ≤ i < Z.of_nat (length (items r)))%Z.

Definition resultsOk (w : TypeAhead) : Prop :=
  resultsInv (depData w) (nextRid w) (data w) (selectedIndex w).

Definition noLoad (ts : list Timer) : Prop :=
  ∀ t, t ∈ ts → isLoad (callback t) = false.

(** Both effects have run for the state on display. *)
Definition rendered (w : TypeAhead) : Prop :=
  depQuery w = query w ∧ settled w.

(** The object the component holds carries the data the router holds,
    unless the first effect has overwritten the field with undefined; and
    what [resultsInv] says of the data on display holds of the router's. *)
Definition fetcherOk (w : TypeAhead) : Prop :=
  (data w = None ∨ data w = held w)
  ∧ resultsInv (depData w) (nextRid w) (held w) (selectedIndex w).

Definition consistent (w : TypeAhead) : Prop :=
  timersOk w ∧ resultsOk w ∧ depQuery w = query w ∧ settled w ∧ fetcherOk w.

(** What an event handler leaves to the effects. *)
Definition effectFree (w w' : TypeAhead) : Prop :=
  depQuery w' = depQuery w ∧ depData w' = depData w ∧ data w' = data w
  ∧ nextRid w' = nextRid w.

Definition handled (w w' : TypeAhead) : Prop :=
  timersOk w' ∧ resultsOk w' ∧ effectFree w w' ∧ fetcherOk w'.

(** The part of the state the first effect owns. *)
Definition sameSchedule (w w' : TypeAhead) : Prop :=
  timers w' = timers w ∧ cleanup w' = cleanup w ∧ nextTid w' = nextTid w
  ∧ depQuery w' = depQuery w ∧ data w' = data w.

Definition armed (w : TypeAhead) : Prop :=
  ∃ t, t ∈ timers w ∧ isLoad (callback t) = true.

Definition loadsDue (d : nat) (w : TypeAhead) : Prop :=
  ∀ t, t ∈ timers w → isLoad (callback t) = true → due t = d.

(** The first effect, run for a new query: a blank query leaves no debounce
    timer and no results; any other query leaves one debounce timer, due 300
    ms from now. *)
Definition afterEdit (w : TypeAhead) : Prop :=
  if JS.truthy (JS.trim (query w))
  then armed w ∧ loadsDue (now w + 300) w
  else noLoad (timers w) ∧ data w = None.

(** The state in which the callback of a timer that has come due runs. *)
Definition fired (t : Timer) (w : TypeAhead) : TypeAhead :=
  set_now (max (now w) (due t)) (clearTimeout (tid t) w).

(** The edits after the first one, each with the pause that precedes it. *)
Fixpoint typing (rest : list (nat * string)) : list Event :=
  match rest with
  | [] => []
  | (pause, text) :: rest' => Elapse pause :: Change text :: typing rest'
  end.

Fixpoint finalText (first : string) (rest : list (nat * string)) : string :=
  match rest with
  | [] => first
  | (_, text) :: rest' => finalText text rest'
  end.

(** The mounted widget with the input focused. *)
Definition focused : TypeAhead :=
  default (mount true) (play [Focus] (mount true)).

(** The widget 100 ms after "an" was typed: the debounce timer is pending. *)
Definition typedAn : TypeAhead :=
  default (mount true) (play [Focus; Change "an"; Elapse 100] (mount true)).

(** The widget after "an" was typed and requested, with the answer still
    under way. *)
Definition awaitingAn : TypeAhead :=
  default (mount true) (play [Focus; Change "an"; Elapse 300] (mount true)).

(** The widget in which the answer for "an" arrived after the input had
    been replaced by a single space: results are stored, the query is
    blank. *)
Definition staleResults : TypeAhead :=
  default (mount true)
    (play [Focus; Change "an"; Elapse 300; Change " "; Respond threeResults]
       (mount true)).




(** * From the widget's href to the loader's request

    [new URL(request.url)] and [url.searchParams] on the server side of
    [fetcher.load(href)], and the route table of [app/routes.ts]. *)

Module Url.

Definition hexValue (c : ascii) : option N :=
  let n := JS.code c in
  if ((48 <=? n) && (n <=? 57))%N then Some (n - 48)%N
  else if ((65 <=? n) && (n <=? 70))%N then Some (n - 55)%N
  else if ((97 <=? n) && (n <=? 102))%N then Some (n - 87)%N
  else None.

(** The bytes of a name or value of the query string, as the
    [application/x-www-form-urlencoded] parser reads them: [+] is a space, a
    [%] followed by two hexadecimal digits is the byte they spell, any other
    code point stands for its UTF-8 bytes. *)
Fixpoint formBytes (s : string) : list N :=
  match s with
  | EmptyString => []
  | String c t =>
      if Ascii.eqb c "+" then 32%N :: formBytes t
      else if Ascii.eqb c "%" then
        match t with
        | String a (String b u) =>
            match hexValue a, hexValue b with
            | Some x, Some y => (16 * x + y)%N :: formBytes u
            | _, _ => 37%N :: formBytes t
            end
        | _ => 37%N :: formBytes t
        end
      else JS.utf8 (JS.code c) ++ formBytes t
  end.

(** UTF-8 decoding into the modelled range of code units: one byte below
    0x80, or 0xC2/0xC3 and a continuation byte; [None] for everything that
    decodes to a code point from U+0100 on or to U+FFFD. *)
Fixpoint utf8Decode (bs : list N) : option string :=
  match bs with
  | [] => Some EmptyString
  | b :: bs' =>
      if (b <? 128)%N then String (ascii_of_N b) <$> utf8Decode bs'
      else if ((b =? 194) || (b =? 195))%N then
        match bs' with
        | b2 :: bs'' =>
            if ((128 <=? b2) && (b2 <=? 191))%N
            then String (ascii_of_N ((b - 192) * 64 + (b2 - 128))) <$> utf8Decode bs''
            else None
        | [] => None
        end
      else None
  end.

Definition formDecode (s : string) : option string := utf8Decode (formBytes s).

(** The pieces of [s] between the occurrences of [sep]. *)
Fixpoint splitOn (sep : ascii) (s : string) : list string :=
  match s with
  | EmptyString => [EmptyString]
  | String c t =>
      if Ascii.eqb c sep then EmptyString :: splitOn sep t
      else match splitOn sep t with
           | p :: ps => String c p :: ps
           | [] => [String c EmptyString]
           end
  end.

(** [s] cut at the first [sep]: what is before it and what is after it. *)
Fixpoint splitFirst (sep : ascii) (s : string) : string * string :=
  match s with
  | EmptyString => (EmptyString, EmptyString)
  | String c t =>
      if Ascii.eqb c sep then (EmptyString, t)
      else let '(before, after) := splitFirst sep t in (String c before, after)
  end.

(** [url.searchParams] of a URL with the given query: the non-empty pieces
    between [&], each cut at its first [=] and decoded. *)
Definition searchParams_parse (query : string) : option URLSearchParams :=
  mapM (λ piece,
          let '(name, val) := splitFirst "=" piece in
          name' ← formDecode name; val' ← formDecode val; Some (name', val'))
       (filter (λ piece, piece ≠ EmptyString) (splitOn "&" query)).

(** Path and query of an href: the fragment starts at the first [#], the
    query at the first [?] before it. *)
Definition hrefPath (href : string) : string :=
  fst (splitFirst "?" (fst (splitFirst "#" href))).

Definition hrefQuery (href : string) : string :=
  snd (splitFirst "?" (fst (splitFirst "#" href))).

End Url.

(** [app/routes.ts] *)
Inductive RouteConfigEntry :=
| index (file : string)
| route (path file : string).

Definition routes : list RouteConfigEntry :=
  [ index "routes/home.tsx";
    route "api/suggestions" "routes/api-suggestions.tsx" ].

(** A pathname spelled exactly as the route's path matches it (the router
    also accepts other letter case and a trailing slash). *)
Definition routeMatches (pathname : string) (r : RouteConfigEntry) : bool :=
  match r with
  | index _ => String.eqb pathname "/"
  | route path _ => String.eqb pathname ("/" +:+ path)
  end.

Definition routeFile (r : RouteConfigEntry) : string :=
  match r with index file => file | route _ file => file end.

Definition moduleAt (pathname : string) : option string :=
  routeFile <$> List.find (routeMatches pathname) routes.

(** The response to a load of [href]: the [loader] of
    [routes/api-suggestions.tsx] run on the request for that URL, when the
    route table leads there. *)
Definition serve (href : string) : option Response :=
  match moduleAt (Url.hrefPath href) with
  | Some file =>
      if String.eqb file "routes/api-suggestions.tsx"
      then (λ ps, loader {| searchParams := ps |})
             <$> Url.searchParams_parse (Url.hrefQuery href)
      else None
  | None => None
  end.

(** Every code unit of [s] satisfies [P]. *)
Fixpoint allChars (P : ascii → bool) (s : string) : bool :=
  match s with
  | EmptyString => true
  | String c t => P c && allChars P t
  end.

(** What [encodeURIComponent] writes for one code unit. *)
Definition encodeUnit (c : ascii) : string :=
  if JS.isUnreserved c then String c ""
  else foldr (λ b acc, JS.percent b +:+ acc) "" (JS.utf8 (JS.code c)).

(** * Vocabulary of the further statements *)

(** What the handlers of the component leave alone: they issue no request,
    keep the clock, and at most register one [Unfocus] timer. *)
Definition handlerFrame (w w' : TypeAhead) : Prop :=
  requests w' = requests w ∧ hasOnSelect w' = hasOnSelect w
  ∧ now w' = now w ∧ state w' = state w
  ∧ (timers w' = timers w
     ∨ ∃ t, callback t = Unfocus ∧ timers w' = timers w ++ [t]).

(** The debounce timers waiting in the queue. *)
Definition pendingLoads (w : TypeAhead) : list Timer :=
  filter (λ t, isLoad (callback t) = true) (timers w).

(** Every href is the one built for some text that is not blank. *)
Definition forNonBlankText (hrefs : list string) : Prop :=
  ∀ h, h ∈ hrefs → ∃ q, h = suggestionsHref q ∧ JS.trim q ≠ "".

Definition isElapse (e : Event) : bool :=
  match e with Elapse _ => true | _ => false end.

(** The four keys of the [switch] in [handleKeyDown]. *)
Definition handledKey (k : string) : bool :=
  String.eqb k "ArrowDown" || String.eqb k "ArrowUp"
  || String.eqb k "Enter" || String.eqb k "Escape".

(** [k] presses of one key. *)
Definition presses (k : nat) (key : string) : list Event :=
  replicate k (KeyDown key).

(** The same timer id is held by one timer only. *)
Definition uniqueId (u : Timer) (ts : list Timer) : Prop :=
  ∀ t, t ∈ ts → tid t = tid u → t = u.

(** * The host page: [app/routes/home.tsx] *)

Module Home.

(** The [useState] cell of [Home] and the lines written by [console.log]. *)
Record State := { selectedValue : string; console : list Suggestion }.

Definition initial : State := {| selectedValue := ""; console := [] |}.

(** Lines 27-30 of [home.tsx]: log the suggestion, keep its value. *)
Definition handleSelect (value' : Suggestion) (h : State) : State :=
  {| selectedValue := value value'; console := console h ++ [value'] |}.

(** [<TypeAhead onSelect={handleSelect} />]: the page after the calls the
    widget made to [onSelect], oldest first. *)
Definition after (w : TypeAhead) : State :=
  foldl (λ h s, handleSelect s h) initial (selected w).

End Home.

(** * What the component renders below the input *)

(** One [<li>] of lines 141-150. *)
Record MenuOption := {
  optionKey : string;     (* [key={suggestion.id}] *)
  ariaSelected : bool;    (* [aria-selected], and the "active" class of the link *)
  label : string          (* [{suggestion.value}] *)
}.

(** What React puts in the document for the expression of lines 134-154.
    The operands of [&&] are evaluated from left to right and the first
    falsy one is the value of the whole expression; React renders [false],
    [undefined] and the empty string as nothing, and a number as its
    digits. *)
Inductive Markup :=
| Nothing
| TextNode (s : string)
| LoadingNotice
| Menu (options : list MenuOption).

Definition dropdown (w : TypeAhead) : Markup :=
  if negb (isFocused w) then Nothing
  else if negb (JS.truthy (JS.trim (query w))) then Nothing
  else match data w with
       | None => Nothing
       | Some r =>
           if length (items r) =? 0 then TextNode "0"
           else if isLoading w then LoadingNotice
           else Menu (imap (λ index suggestion,
                              {| optionKey := id suggestion;
                                 ariaSelected := (selectedIndex w =? Z.of_nat index)%Z;
                                 label := value suggestion |})
                           (items r))
       end.

(** * Properties of the endpoint *)

Section StringFacts.

Implicit Types (s p q t : string) (c : ascii).

Lemma append_cons c s t : String c s +:+ t = String c (s +:+ t).
Proof. reflexivity. Qed.

Lemma startsWith_spec p : ∀ s, JS.startsWith s p = true ↔ ∃ post, s = p +:+ post.
Proof.
  induction p as [|a p IH]; intros s; simpl.
  - split; [intros _; by exists s | done].
  - destruct s as [|b s]; simpl.
    + split; [done | by intros [post ?]].
    + destruct (Ascii.eqb_spec a b) as [->|Hne].
      * rewrite IH. split; intros [post Hp]; exists post;
          rewrite append_cons in *; congruence.
      * split; [done | intros [post Hp]; rewrite append_cons in Hp; congruence].
Qed.

Lemma includes_spec q : ∀ s, JS.includes s q = true ↔ occursIn q s.
Proof.
  induction s as [|c s IH]; simpl; rewrite orb_true_iff, startsWith_spec.
  - split.
    + intros [[post Hp]|?]; [|done]. by exists "", post.
    + intros ([|a pre] & post & Hp); [left; by exists post | done].
  - rewrite IH. split.
    + intros [[post Hp]|(pre & post & Hp)].
      * by exists "", post.
      * exists (String c pre), post. by rewrite append_cons, Hp.
    + intros ([|a pre] & post & Hp).
      * left. by exists post.
      * right. exists pre, post. rewrite append_cons in Hp. congruence.
Qed.

Lemma trimStart_whiteSpaceOnly s : whiteSpaceOnly s = true → JS.trimStart s = "".
Proof.
  induction s as [|c s IH]; simpl; [done|].
  intros [Hc Hs]%andb_true_iff. rewrite Hc. auto.
Qed.

Lemma trimStart_head s :
  match JS.trimStart s with
  | EmptyString => whiteSpaceOnly s = true
  | String c _ => JS.isWhiteSpace c = false
  end.
Proof.
  induction s as [|c s IH]; simpl; [done|].
  destruct (JS.isWhiteSpace c) eqn:Hc; simpl; [|by rewrite Hc].
  destruct (JS.trimStart s); [by rewrite IH | done].
Qed.

Lemma trimEnd_empty s : JS.trimEnd s = "" → whiteSpaceOnly s = true.
Proof.
  induction s as [|c s IH]; simpl; [done|].
  destruct (JS.trimEnd s); [|done].
  destruct (JS.isWhiteSpace c); [auto | done].
Qed.

Lemma toLowerCase_empty s : JS.toLowerCase s = "" ↔ s = "".
Proof. by destruct s. Qed.

(** The loader's normal form of a query is empty exactly for the queries
    made of white space only. *)
Lemma normal_form_empty q :
  JS.toLowerCase (JS.trim q) = "" ↔ whiteSpaceOnly q = true.
Proof.
  rewrite toLowerCase_empty. unfold JS.trim. split.
  - intros Ht%trimEnd_empty. pose proof (trimStart_head q) as Hh.
    destruct (JS.trimStart q) as [|c t]; [done|].
    simpl in Ht. apply andb_true_iff in Ht as [Hc _]. congruence.
  - intros Hw. by rewrite trimStart_whiteSpaceOnly.
Qed.

Lemma truthy_true s : JS.truthy s = true ↔ s ≠ "".
Proof. by destruct s. Qed.

Lemma orElse_empty s : JS.orElse s "" = s.
Proof. by destruct s. Qed.

End StringFacts.

Lemma sublist_same_elements {A} (l m1 m2 : list A) :
  NoDup l → m1 `sublist_of` l → m2 `sublist_of` l →
  (∀ x, x ∈ m1 ↔ x ∈ m2) → m1 = m2.
Proof.
  intros Hl. revert m1 m2.
  induction Hl as [|a l Ha Hl IH]; intros m1 m2 H1 H2 Hsame.
  - apply sublist_nil_r in H1, H2. congruence.
  - apply sublist_cons_r in H1 as [H1|(k1 & -> & H1)];
      apply sublist_cons_r in H2 as [H2|(k2 & -> & H2)].
    + by apply IH.
    + destruct Ha. eapply elem_of_sublist; [|exact H1]. apply Hsame. by left.
    + destruct Ha. eapply elem_of_sublist; [|exact H2]. apply Hsame. by left.
    + f_equal. apply IH; [done | done |]. intros x.
      assert (∀ k, k `sublist_of` l → x ∈ k → x ≠ a) as Hneq.
      { intros k Hk Hx ->. destruct Ha. by eapply elem_of_sublist. }
      specialize (Hsame x). rewrite !elem_of_cons in Hsame.
      split; intros Hx.
      * destruct (proj1 Hsame (or_intror Hx)) as [Heq|?]; [|done].
        by destruct (Hneq k1 H1 Hx).
      * destruct (proj2 Hsame (or_intror Hx)) as [Heq|?]; [|done].
        by destruct (Hneq k2 H2 Hx).
Qed.

(** The ids of [fruits] are pairwise distinct, so no entry occurs twice. *)
Lemma fruits_NoDup : NoDup fruits.
Proof.
  apply (NoDup_fmap_1 id). apply (bool_decide_unpack _). vm_compute. exact I.
Qed.

Lemma elem_of_filter_includes needle (l : list Suggestion) s :
  s ∈ List.filter (λ fruit, JS.includes (JS.toLowerCase (value fruit)) needle) l
  ↔ s ∈ l ∧ occursIn needle (JS.toLowerCase (value s)).
Proof.
  rewrite !list_elem_of_In, filter_In, includes_spec. done.
Qed.

Lemma sublist_List_filter {A} (f : A → bool) (l : list A) :
  List.filter f l `sublist_of` l.
Proof.
  induction l as [|x l IH]; simpl; [constructor|].
  destruct (f x); by constructor.
Qed.

Lemma loader_truthy request :
  JS.truthy (loader_query request) = true →
  loader request
  = {| status := 200;
       headers := [("Content-Type", "application/json")];
       body := Json (JS.slice 0 10
                 (List.filter
                    (λ fruit, JS.includes (JS.toLowerCase (value fruit)) (loader_query request))
                    fruits)) |}.
Proof. unfold loader. intros ->. reflexivity. Qed.

Lemma loader_falsy request :
  JS.truthy (loader_query request) = false →
  loader request = {| status := 200; headers := []; body := Text "[]" |}.
Proof. unfold loader. intros ->. reflexivity. Qed.

(** C1. For a request whose [q], trimmed and lower-cased, is not empty, the
    loader answers with status 200 and with the first 10 entries of
    [matching], where [matching] is the subsequence of [fruits], in the order
    of [fruits], made of exactly the entries whose lower-cased value contains
    that trimmed, lower-cased query as a substring (there is one such
    subsequence only); so the answer has at most 10 entries. *)
Theorem loader_first_ten_matches (request : Request) (q : string) :
  searchParams_get "q" (searchParams request) = Some q →
  JS.toLowerCase (JS.trim q) ≠ "" →
  ∃ matching,
    matching `sublist_of` fruits
    ∧ (∀ s, s ∈ matching
            ↔ s ∈ fruits
              ∧ occursIn (JS.toLowerCase (JS.trim q)) (JS.toLowerCase (value s)))
    ∧ (∀ m, m `sublist_of` fruits → (∀ s, s ∈ m ↔ s ∈ matching) → m = matching)
    ∧ response_ok (loader request) = true
    ∧ response_json (loader request) = Some (take 10 matching)
    ∧ length (take 10 matching) ≤ 10.
Proof.
  intros Hget Hne.
  assert (loader_query request = JS.toLowerCase (JS.trim q)) as Hq.
  { unfold loader_query. rewrite Hget. apply orElse_empty. }
  rewrite loader_truthy by (rewrite Hq; by apply truthy_true).
  rewrite Hq. pose proof fruits_NoDup as Hnd.
  generalize dependent fruits. generalize (JS.toLowerCase (JS.trim q)).
  intros needle l Hnd.
  set (matching := List.filter _ l). exists matching.
  pose proof (sublist_List_filter
                (λ fruit, JS.includes (JS.toLowerCase (value fruit)) needle) l) as Hsub.
  split; [exact Hsub|]. split; [intros s; apply elem_of_filter_includes|].
  split; [intros m Hm Hsame; by eapply sublist_same_elements|].
  split; [reflexivity|]. split.
  - unfold response_json, JS.slice. cbn [body]. by rewrite drop_0.
  - rewrite length_take. lia.
Qed.

Lemma loader_first_ten_matches_witness :
  ∃ matching,
    matching `sublist_of` fruits
    ∧ (∀ s, s ∈ matching ↔ s ∈ fruits ∧ occursIn "ap" (JS.toLowerCase (value s)))
    ∧ (∀ m, m `sublist_of` fruits → (∀ s, s ∈ m ↔ s ∈ matching) → m = matching)
    ∧ response_ok (loader {| searchParams := [("q", " Ap ")] |}) = true
    ∧ response_json (loader {| searchParams := [("q", " Ap ")] |})
      = Some (take 10 matching)
    ∧ length (take 10 matching) ≤ 10.
Proof.
  apply (loader_first_ten_matches {| searchParams := [("q", " Ap ")] |} " Ap ").
  - reflexivity.
  - vm_compute. discriminate.
Defined.

(** C2. When [q] is missing, or is empty or made of white space only, or in
    general has an empty trimmed and lower-cased form, the loader answers
    with status 200 and the empty array; the loader is a total function and
    has no failing path. *)
Theorem loader_blank_query (request : Request) :
  (searchParams_get "q" (searchParams request) = None
   ∨ ∃ q, searchParams_get "q" (searchParams request) = Some q
          ∧ (whiteSpaceOnly q = true ∨ JS.toLowerCase (JS.trim q) = "")) →
  response_ok (loader request) = true
  ∧ response_json (loader request) = Some [].
Proof.
  intros Hq.
  assert (loader_query request = "") as Hempty.
  { unfold loader_query. destruct Hq as [->|(q & -> & Hb)]; [reflexivity|].
    rewrite orElse_empty. destruct Hb as [Hw|Hn]; [|exact Hn].
    by apply normal_form_empty. }
  rewrite loader_falsy by (rewrite Hempty; reflexivity).
  split; reflexivity.
Qed.

Lemma loader_blank_query_witness :
  response_json (loader {| searchParams := [("page", "2")] |}) = Some []
  ∧ response_json (loader {| searchParams := [("q", "   ")] |}) = Some [].
Proof.
  split.
  - apply (loader_blank_query {| searchParams := [("page", "2")] |}).
    left. reflexivity.
  - apply (loader_blank_query {| searchParams := [("q", "   ")] |}).
    right. exists "   ". split; [reflexivity | left; reflexivity].
Defined.

(** * Properties of the widget *)

(** ** What rendering leaves alone *)

Ltac unfold_effects :=
  unfold commit, debounceEffect, debounceCleanup, resetEffect, setTimeout,
    clearTimeout in *.

Lemma commit_view w : sameView w (commit w).
Proof.
  unfold sameView. unfold_effects.
  repeat (case_decide || case_match); simpl; done.
Qed.

Lemma commit_index w :
  selectedIndex (commit w) = selectedIndex w ∨ selectedIndex (commit w) = (-1)%Z.
Proof.
  unfold_effects. repeat (case_decide || case_match); simpl; auto.
Qed.

Lemma sameView_trans w1 w2 w3 : sameView w1 w2 → sameView w2 w3 → sameView w1 w3.
Proof. unfold sameView. intuition congruence. Qed.

Lemma render_view w : sameView w (render w).
Proof.
  unfold render. case_decide; [apply commit_view|].
  eapply sameView_trans; apply commit_view.
Qed.

Lemma render_index w :
  selectedIndex (render w) = selectedIndex w ∨ selectedIndex (render w) = (-1)%Z.
Proof.
  unfold render. case_decide as Hc; [by left|].
  destruct (commit_index w) as [?|H1]; [done|].
  destruct (commit_index (commit w)) as [H2|H2]; right; congruence.
Qed.

Lemma update_view w w' : sameView w' (update w w').
Proof.
  unfold update. case_decide; [|apply render_view].
  unfold sameView. done.
Qed.

Lemma update_index w w' :
  selectedIndex (update w w') = selectedIndex w'
  ∨ selectedIndex (update w w') = (-1)%Z.
Proof. unfold update. case_decide; [by left | apply render_index]. Qed.

Lemma update_same w : update w w = w.
Proof. unfold update. by rewrite decide_True. Qed.

Lemma dataLength_pos w :
  0 < dataLength w ↔ ∃ r, data w = Some r ∧ items r ≠ [].
Proof.
  unfold dataLength. destruct (data w) as [r|].
  - split.
    + intros Hl. exists r. split; [done|]. intros Hr. rewrite Hr in Hl. simpl in Hl. lia.
    + intros (r' & [= <-] & Hr). destruct (items r); [done | simpl; lia].
  - split; [lia | by intros (? & ? & ?)].
Qed.

Lemma guard_open w :
  JS.trim (query w) ≠ "" → 0 < dataLength w →
  negb (JS.truthy (JS.trim (query w))) || (dataLength w =? 0) = false.
Proof.
  intros Hq%truthy_true Hl. rewrite Hq. simpl.
  apply Nat.eqb_neq. lia.
Qed.

(** ** The guard of the key handler *)

(** C10. With a query that trims to nothing, or with results absent or
    empty, the key handler returns the event and the widget as it got them,
    whatever the key: no field changes, [onSelect] receives nothing, the
    default action of the key is not prevented; and no render follows. *)
Theorem keys_ignored_without_results (event : KeyboardEvent) (w : TypeAhead) :
  JS.trim (query w) = "" ∨ data w = None ∨ (∃ r, data w = Some r ∧ items r = []) →
  handleKeyDown event w = Normal (event, w)
  ∧ dispatch (KeyDown (key event)) w = Normal w.
Proof.
  intros Hg.
  assert (negb (JS.truthy (JS.trim (query w))) || (dataLength w =? 0) = true) as Hguard.
  { apply orb_true_iff. destruct Hg as [Hq|[Hd|(r & Hd & Hr)]].
    - left. by rewrite Hq.
    - right. unfold dataLength. by rewrite Hd.
    - right. unfold dataLength. by rewrite Hd, Hr. }
  unfold dispatch, handleKeyDown. simpl query. rewrite Hguard.
  by rewrite update_same.
Qed.

Lemma keys_ignored_without_results_witness :
  dispatch (KeyDown "Enter") (mount true) = Normal (mount true).
Proof.
  apply (keys_ignored_without_results {| key := "Enter"; defaultPrevented := false |}).
  left. reflexivity.
Defined.

(** ** Escape, Enter and click *)

Lemma blur_fields w :
  isFocused (blur w) = isFocused w ∧ query (blur w) = query w
  ∧ selectedIndex (blur w) = selectedIndex w ∧ data (blur w) = data w
  ∧ selected (blur w) = selected w ∧ hasOnSelect (blur w) = hasOnSelect w
  ∧ inputFocused (blur w) = false.
Proof.
  unfold blur, onBlur, setTimeout. destruct (inputFocused w) eqn:Hf; simpl; done.
Qed.

Lemma not_visible_unfocused w : isFocused w = false → dropdownVisible w = false.
Proof. unfold dropdownVisible. by intros ->. Qed.

(** C9, with the query as the guard of the handler tests it. With a query
    that is not empty once trimmed and non-empty results, Escape sets
    [isFocused] to false, so the dropdown is closed, puts the highlight back
    to -1, takes the focus off the input and leaves the query text as it
    was. *)
Theorem escape_closes_dropdown (w : TypeAhead) :
  JS.trim (query w) ≠ "" → 0 < dataLength w →
  ∃ w', dispatch (KeyDown "Escape") w = Normal w'
        ∧ isFocused w' = false ∧ dropdownVisible w' = false
        ∧ selectedIndex w' = (-1)%Z
        ∧ inputFocused w' = false
        ∧ query w' = query w.
Proof.
  intros Hq Hl. pose proof (guard_open w Hq Hl) as Hg.
  unfold dispatch, handleKeyDown. simpl query. rewrite Hg. simpl.
  set (w1 := blur _).
  destruct (blur_fields (set_selectedIndex (-1) (set_isFocused false w)))
    as (Hf & Hqu & Hi & _ & _ & _ & Hin). fold w1 in Hf, Hqu, Hi, Hin.
  destruct (update_view w w1) as (_ & Hf2 & Hq2 & _ & _ & _ & _ & Hin2 & _).
  exists (update w w1). split; [done|].
  assert (isFocused (update w w1) = false) as Hfoc by (by rewrite Hf2, Hf).
  repeat split.
  - done.
  - by apply not_visible_unfocused.
  - destruct (update_index w w1) as [-> | ->]; [by rewrite Hi | done].
  - by rewrite Hin2.
  - by rewrite Hq2, Hqu.
Qed.

Lemma escape_closes_dropdown_witness :
  ∃ w', dispatch (KeyDown "Escape") openWithThree = Normal w'
        ∧ isFocused w' = false ∧ dropdownVisible w' = false
        ∧ selectedIndex w' = (-1)%Z
        ∧ inputFocused w' = false
        ∧ query w' = "an".
Proof.
  apply (escape_closes_dropdown openWithThree).
  - vm_compute. discriminate.
  - vm_compute. lia.
Defined.

Lemma commit_settled_index v :
  depData v = rid <$> data v → selectedIndex (commit v) = selectedIndex v.
Proof.
  intros Hv. unfold_effects.
  repeat (case_decide || case_match); simpl in *; congruence.
Qed.

Lemma update_settled_index w w' :
  depData w' = rid <$> data w' → selectedIndex (update w w') = selectedIndex w'.
Proof.
  intros Hv. unfold update. case_decide; [done|].
  unfold render. pose proof (commit_settled_index w' Hv). by case_decide.
Qed.

Lemma handleSelect_some s w :
  ∃ w1, handleSelect (Some s) w = Normal w1
        ∧ query w1 = value s ∧ isFocused w1 = false
        ∧ selectedIndex w1 = (-1)%Z
        ∧ selected w1 = selected w ++ (if hasOnSelect w then [s] else []).
Proof.
  unfold handleSelect. simpl. eexists. split; [reflexivity|].
  destruct (hasOnSelect w); simpl; repeat split; by rewrite ?app_nil_r.
Qed.

Lemma selection_after_update s w w0 w1 :
  query w1 = value s → isFocused w1 = false → selectedIndex w1 = (-1)%Z →
  selected w1 = selected w ++ (if hasOnSelect w then [s] else []) →
  selectionOf s w (update w0 w1).
Proof.
  intros Hq Hf Hi Hs.
  destruct (update_view w0 w1) as (_ & Hf2 & Hq2 & _ & _ & _ & _ & _ & Hs2).
  assert (isFocused (update w0 w1) = false) as Hfoc by congruence.
  repeat split; [congruence | done | by apply not_visible_unfocused | | congruence].
  destruct (update_index w0 w1) as [-> | ->]; done.
Qed.

(** C4, with the guard of the handler. With a query that is not empty once
    trimmed and non-empty results, Enter hands to
    [handleSelect] the entry at [selectedIndex] when that is 0 or more, and
    the first entry otherwise; a click on an entry hands that entry to the
    same [handleSelect]. Either way the query text becomes the entry's value,
    [isFocused] becomes false (the dropdown closes), the highlight returns
    to -1, and [onSelect], when the host gave one, is called with the whole
    record. *)
Theorem enter_and_click_select (w : TypeAhead) (r : Results) :
  JS.trim (query w) ≠ "" → data w = Some r → items r ≠ [] →
  (∀ s,
     (if (0 <=? selectedIndex w)%Z then items r !! Z.to_nat (selectedIndex w)
      else head (items r)) = Some s →
     ∃ w1, handleSelect (Some s) w = Normal w1
           ∧ dispatch (KeyDown "Enter") w = Normal (update w (blur w1))
           ∧ selectionOf s w (update w (blur w1)))
  ∧ (∀ i s,
       items r !! i = Some s →
       ∃ w1, handleSelect (Some s) w = Normal w1
             ∧ dispatch (Click i) w = Normal (update w w1)
             ∧ selectionOf s w (update w w1)).
Proof.
  intros Hq Hd Hr.
  assert (0 < dataLength w) as Hl by (apply dataLength_pos; eauto).
  pose proof (guard_open w Hq Hl) as Hg. split.
  - intros s Hpick.
    destruct (handleSelect_some s w) as (w1 & Hsel & Hq1 & Hf1 & Hi1 & Hs1).
    exists w1. split; [done|].
    assert (dispatch (KeyDown "Enter") w = Normal (update w (blur w1))) as ->.
    { unfold dispatch, handleKeyDown. simpl query. rewrite Hg. simpl.
      apply Nat.ltb_lt in Hl as Hlb. unfold dataAt. rewrite Hd, Hlb.
      rewrite Z.geb_leb. destruct (0 <=? selectedIndex w)%Z eqn:Hi.
      - by rewrite Hpick, Hsel.
      - simpl. rewrite <- head_lookup, Hpick. by rewrite Hsel. }
    split; [done|].
    destruct (blur_fields w1) as (Hf & Hqu & Hi & _ & Hs & _ & _).
    apply selection_after_update; congruence.
  - intros i s Hi.
    destruct (handleSelect_some s w) as (w1 & Hsel & Hq1 & Hf1 & Hi1 & Hs1).
    exists w1. split; [done|].
    assert (dispatch (Click i) w = Normal (update w w1)) as ->.
    { unfold dispatch, dataAt. rewrite Hd.
      assert ((0 <=? Z.of_nat i)%Z = true) as -> by (apply Z.leb_le; lia).
      by rewrite Nat2Z.id, Hi, Hsel. }
    split; [done|]. by apply selection_after_update.
Qed.

Lemma enter_and_click_select_witness :
  selectionOf (mk "banana" "Banana") openWithThree
    (update openWithThree
       (blur (set_selected [mk "banana" "Banana"]
                (set_selectedIndex (-1)
                   (set_isFocused false (set_query "Banana" openWithThree)))))).
Proof.
  destruct (enter_and_click_select openWithThree {| rid := 0; items := threeResults |})
    as [Henter _].
  - vm_compute. discriminate.
  - vm_compute. reflexivity.
  - vm_compute. discriminate.
  - destruct (Henter (mk "banana" "Banana")) as (w1 & Hsel & _ & Hres).
    + vm_compute. reflexivity.
    + vm_compute in Hsel. injection Hsel as <-. exact Hres.
Defined.

(** ** The invariants hold in every reachable state *)

Lemma commit_rendered w : rendered (commit w).
Proof.
  unfold rendered, settled. unfold_effects.
  destruct (data w) as [r0|] eqn:Hd;
    repeat (case_decide || case_match); simpl in *; split; intros; simplify_eq/=;
    try done; try congruence.
Qed.

Lemma render_rendered w : rendered (render w).
Proof. unfold render. case_decide; apply commit_rendered. Qed.

Section TimerQueue.

Implicit Types (ts : list Timer) (t : Timer).

Lemma timersInv_cleared ts next clean dq :
  timersInv ts next clean dq →
  let ts' := match clean with
             | Some c => filter (λ x, tid x ≠ c) ts
             | None => ts
             end in
  noLoad ts' ∧ ∀ t, t ∈ ts' → tid t < next.
Proof.
  intros (Hid & _ & Hk). destruct clean as [c|]; simpl; split.
  - intros t [Hne Hin]%list_elem_of_filter. specialize (Hk t Hin).
    destruct (isLoad (callback t)); [|done]. destruct Hk as ([= ->] & _). done.
  - intros t [_ Hin]%list_elem_of_filter. auto.
  - intros t Hin. specialize (Hk t Hin).
    destruct (isLoad (callback t)); [|done]. by destruct Hk.
  - done.
Qed.

Lemma timersInv_quiet ts next dq :
  noLoad ts → (∀ t, t ∈ ts → tid t < next) → timersInv ts next None dq.
Proof.
  intros Hno Hid. repeat split; [done | done |].
  intros t Hin. by rewrite (Hno t Hin).
Qed.

Lemma timersInv_scheduled ts next d q :
  noLoad ts → (∀ t, t ∈ ts → tid t < next) → JS.trim q ≠ "" →
  timersInv (ts ++ [{| tid := next; due := d; callback := LoadSuggestions q |}])
    (S next) (Some next) q.
Proof.
  intros Hno Hid Hq. repeat split.
  - intros t [Hin | ->%list_elem_of_singleton]%elem_of_app; simpl; [|lia].
    specialize (Hid t Hin). lia.
  - intros c [= <-]. lia.
  - intros t [Hin | ->%list_elem_of_singleton]%elem_of_app; simpl; [|done].
    rewrite (Hno t Hin). intros [= Heq]. specialize (Hid t Hin). lia.
Qed.

Lemma timersInv_unfocus ts next clean dq d :
  timersInv ts next clean dq →
  timersInv (ts ++ [{| tid := next; due := d; callback := Unfocus |}])
    (S next) clean dq.
Proof.
  intros (Hid & Hc & Hk). repeat split.
  - intros t [Hin | ->%list_elem_of_singleton]%elem_of_app; simpl; [|lia].
    specialize (Hid t Hin). lia.
  - intros c Heq. specialize (Hc c Heq). lia.
  - intros t [Hin | ->%list_elem_of_singleton]%elem_of_app; simpl; [by apply Hk|].
    intros Heq. specialize (Hc _ Heq). lia.
Qed.

Lemma timersInv_filter ts next clean dq k :
  timersInv ts next clean dq →
  timersInv (filter (λ x, tid x ≠ k) ts) next clean dq.
Proof.
  intros (Hid & Hc & Hk). repeat split; [|done|].
  - intros t [_ Hin]%list_elem_of_filter. by apply Hid.
  - intros t [_ Hin]%list_elem_of_filter. by apply Hk.
Qed.

End TimerQueue.

Lemma commit_timersOk w : timersOk w → timersOk (commit w).
Proof.
  unfold timersOk. intros Hw.
  assert (timersInv
            (timers (set_depQuery (query w) (debounceEffect (debounceCleanup w))))
            (nextTid (set_depQuery (query w) (debounceEffect (debounceCleanup w))))
            (cleanup (set_depQuery (query w) (debounceEffect (debounceCleanup w))))
            (query w)) as Hstep.
  { destruct (timersInv_cleared _ _ _ _ Hw) as [Hno Hid].
    unfold debounceEffect, debounceCleanup, setTimeout, clearTimeout.
    destruct (cleanup w) as [c|]; simpl in *;
      destruct (JS.truthy (JS.trim (query w))) eqn:Hq; simpl;
      first [ apply timersInv_scheduled; [done | done | by apply truthy_true]
            | by apply timersInv_quiet ]. }
  unfold commit. repeat case_decide; simpl; done.
Qed.

Lemma commit_resultsOk w : resultsOk w → resultsOk (commit w).
Proof.
  unfold resultsOk, resultsInv. intros (Hk & Hr & Hi).
  unfold_effects.
  destruct (data w) as [r0|] eqn:Hd;
    repeat (case_decide || case_match); simpl in *;
    (split; [|split]); intros; simplify_eq/=; eauto.
Qed.

Lemma commit_fetcherOk w : fetcherOk w → fetcherOk (commit w).
Proof.
  unfold fetcherOk, resultsInv. intros (Ha & Hk & Hr & Hi).
  assert (∀ r0, data w = Some r0 → held w = Some r0) as Hdh.
  { intros r0 Hd. destruct Ha; congruence. }
  clear Ha. unfold_effects.
  destruct (data w) as [r0|] eqn:Hd;
    [specialize (Hdh r0 eq_refl) | clear Hdh];
    repeat (case_decide || case_match); simpl in *;
    (split; [|split; [|split]]); intros; simplify_eq/=;
    try (right; congruence); try (left; congruence); eauto.
Qed.

Lemma render_fetcherOk w : fetcherOk w → fetcherOk (render w).
Proof. unfold render. case_decide; auto using commit_fetcherOk. Qed.

Lemma render_consistent w :
  timersOk w → resultsOk w → fetcherOk w → consistent (render w).
Proof.
  intros Ht Hr Hf.
  split; [|split]; [| |split; [apply render_rendered|split; [apply render_rendered|]]];
    unfold render; case_decide;
    auto using commit_timersOk, commit_resultsOk, commit_fetcherOk.
Qed.

Lemma resultsInv_reset dd next d i :
  resultsInv dd next d i → resultsInv dd next d (-1).
Proof. intros (Hk & Hr & _). repeat split; auto. Qed.

Lemma resultsInv_move dd next d i j :
  resultsInv dd next d i →
  (∀ r, d = Some r →
     (i = -1 ∨ 0 ≤ i < Z.of_nat (length (items r))) →
     (j = -1 ∨ 0 ≤ j < Z.of_nat (length (items r))))%Z →
  resultsInv dd next d j.
Proof. intros (Hk & Hr & Hi) Hj. repeat split; eauto. Qed.

Lemma update_consistent w w' :
  consistent w → handled w w' → consistent (update w w').
Proof.
  intros (_ & _ & Hdq & Hs & _) (Ht & Hr & (Hq & Hdd & Hd & _) & Hf).
  unfold update. case_decide as Hsame; [|by apply render_consistent].
  destruct Hsame as (_ & Hquery & _).
  split; [done|]. split; [done|]. split; [congruence|]. split; [|done].
  intros r. rewrite Hd, Hdd. apply Hs.
Qed.

Lemma handled_refl w : timersOk w → resultsOk w → fetcherOk w → handled w w.
Proof. intros Ht Hr Hf. split; [done|]. split; [done|]. split; [by repeat split | done]. Qed.

Lemma blur_handled w : timersOk w → resultsOk w → fetcherOk w → handled w (blur w).
Proof.
  intros Ht Hr Hf. unfold blur, onBlur, setTimeout.
  destruct (inputFocused w); simpl; [|by apply handled_refl].
  split; [by apply timersInv_unfocus|]. split; [done|]. split; [by repeat split | done].
Qed.

Lemma handled_trans w1 w2 w3 : handled w1 w2 → handled w2 w3 → handled w1 w3.
Proof.
  unfold handled, effectFree.
  intros (_ & _ & (? & ? & ? & ?) & _) (? & ? & (? & ? & ? & ?) & ?).
  split; [done|]. split; [done|]. split; [repeat split; congruence | done].
Qed.

Lemma handleSelect_handled o w w' :
  timersOk w → resultsOk w → fetcherOk w →
  handleSelect o w = Normal w' → handled w w'.
Proof.
  intros Ht Hr Hf. unfold handleSelect. destruct o as [s|]; [|done].
  simpl. intros [= <-].
  destruct (hasOnSelect w); simpl; (split; [done|]);
    (split; [by eapply resultsInv_reset|]);
    (split; [by repeat split|]);
    (split; [apply Hf | eapply resultsInv_reset; apply Hf]).
Qed.

Lemma handleKeyDown_handled event w event' w' :
  timersOk w → resultsOk w → fetcherOk w →
  handleKeyDown event w = Normal (event', w') → handled w w'.
Proof.
  intros Ht Hr Hf. unfold handleKeyDown.
  assert (handled w w) as Hrefl by (by apply handled_refl).
  destruct (_ || _) eqn:Hg; [by intros [= <- <-]|].
  apply orb_false_iff in Hg as [_ Hlen%Nat.eqb_neq].
  assert (data w = held w) as Hdh.
  { destruct Hf as ([Hn|?] & _); [|done].
    unfold dataLength in Hlen. by rewrite Hn in Hlen. }
  destruct (String.eqb (key event) "ArrowDown").
  { intros [= <- <-].
    split; [done|]. split; [|split; [by repeat split|split; [apply Hf|]]].
    - eapply resultsInv_move; [apply Hr|].
      intros r Hd Hi. simpl in *. unfold dataLength. rewrite Hd.
      destruct (Z.ltb_spec (selectedIndex w) (Z.of_nat (length (items r)) - 1)); lia.
    - eapply resultsInv_move; [apply Hf|].
      intros r Hd Hi. simpl in *. rewrite <- Hdh in Hd. unfold dataLength. rewrite Hd.
      destruct (Z.ltb_spec (selectedIndex w) (Z.of_nat (length (items r)) - 1)); lia. }
  destruct (String.eqb (key event) "ArrowUp").
  { intros [= <- <-].
    split; [done|]. split; [|split; [by repeat split|split; [apply Hf|]]].
    - eapply resultsInv_move; [apply Hr|].
      intros r Hd Hi. simpl in *.
      destruct (Z.gtb_spec (selectedIndex w) 0); lia.
    - eapply resultsInv_move; [apply Hf|].
      intros r Hd Hi. simpl in *.
      destruct (Z.gtb_spec (selectedIndex w) 0); lia. }
  destruct (String.eqb (key event) "Enter").
  { assert (∀ o w1, handleSelect o w = Normal w1 → handled w (blur w1)) as Hsel.
    { intros o w1 Hs. pose proof (handleSelect_handled o w w1 Ht Hr Hf Hs) as H1.
      eapply handled_trans; [exact H1|]. apply blur_handled; apply H1. }
    destruct (selectedIndex w >=? 0)%Z.
    - destruct (handleSelect _ w) as [w1|] eqn:Hs; [|done].
      intros [= <- <-]. by eapply Hsel.
    - destruct (0 <? dataLength w).
      + destruct (handleSelect _ w) as [w1|] eqn:Hs; [|done].
        intros [= <- <-]. by eapply Hsel.
      + intros [= <- <-]. by apply blur_handled. }
  destruct (String.eqb (key event) "Escape"); [|by intros [= <- <-]].
  intros [= <- <-].
  set (w1 := set_selectedIndex (-1) (set_isFocused false w)).
  assert (handled w w1) as H1.
  { split; [done|]. split; [by eapply resultsInv_reset|].
    split; [by repeat split|].
    split; [apply Hf | eapply resultsInv_reset; apply Hf]. }
  eapply handled_trans; [exact H1|]. apply blur_handled; apply H1.
Qed.

Lemma respond_ok l w :
  consistent w →
  timersOk (respond l w) ∧ resultsOk (respond l w) ∧ fetcherOk (respond l w).
Proof.
  intros (Ht & (Hk & Hr & Hi) & _). split; [done|].
  assert (resultsOk (respond l w)) as Hok.
  { unfold resultsOk, respond. simpl. repeat split.
    - intros k Hdd. specialize (Hk k Hdd). lia.
    - intros r [= <-]. simpl. lia.
    - intros r [= <-]. simpl. intros Hdd. specialize (Hk _ Hdd). lia. }
  split; [done|]. split; [by right | exact Hok].
Qed.

(** A load that starts puts the router's data on display. *)
Lemma fetcher_load_ok href w :
  consistent w →
  timersOk (fetcher_load href w) ∧ resultsOk (fetcher_load href w)
  ∧ fetcherOk (fetcher_load href w).
Proof.
  intros (Ht & _ & _ & _ & _ & Hh). split; [done|]. split; [exact Hh|].
  split; [by right | exact Hh].
Qed.

Lemma runCallback_consistent cb w : consistent w → consistent (runCallback cb w).
Proof.
  intros Hw. destruct cb as [q|]; simpl.
  - destruct (fetcher_load_ok (suggestionsHref q) w Hw) as (? & ? & ?).
    by apply render_consistent.
  - apply update_consistent; [done|]. destruct Hw as (? & ? & _ & _ & ?).
    split; [done|]. split; [done|]. split; [by repeat split | done].
Qed.

Lemma fired_consistent k t w :
  consistent w → consistent (set_now t (clearTimeout k w)).
Proof.
  intros (Ht & Hr & Hre). split; [|done].
  by apply timersInv_filter.
Qed.

Lemma runTimers_consistent fuel until w :
  consistent w → consistent (runTimers fuel until w).
Proof.
  revert w. induction fuel as [|fuel IH]; intros w Hw; simpl; [done|].
  destruct (earliest (timers w)) as [t|]; [|done].
  destruct (due t <=? until); [|done].
  apply IH, runCallback_consistent, fired_consistent, Hw.
Qed.

Lemma mount_consistent onSelect : consistent (mount onSelect).
Proof.
  split; [|split; [|split; [done|split; [done|split; [by left|]]]]];
    repeat split; simpl; try done; by intros t ?%elem_of_nil.
Qed.

Lemma dispatch_consistent e w w' :
  consistent w → dispatch e w = Normal w' → consistent w'.
Proof.
  intros Hw. pose proof Hw as (Ht & Hr & Hdq & Hs & Hf).
  destruct e as [text|k| | |i|ms|l]; simpl.
  - intros [= <-]. apply update_consistent; [done|].
    split; [done|]. split; [done|]. split; [by repeat split | done].
  - destruct (handleKeyDown _ w) as [[event' w1]|] eqn:Hk; [|done].
    intros [= <-]. apply update_consistent; [done|].
    by eapply handleKeyDown_handled.
  - intros [= <-]. apply update_consistent; [done|].
    split; [done|]. split; [done|]. split; [by repeat split | done].
  - intros [= <-]. unfold onBlur, setTimeout. simpl.
    split; [|done]. by apply timersInv_unfocus.
  - destruct (handleSelect _ w) as [w1|] eqn:Hs1; [|done].
    intros [= <-]. apply update_consistent; [done|].
    by eapply handleSelect_handled.
  - intros [= <-]. by apply runTimers_consistent.
  - intros [= <-]. destruct (respond_ok l w Hw) as (? & ? & ?).
    by apply render_consistent.
Qed.

Lemma reachable_consistent w : reachable w → consistent w.
Proof.
  induction 1 as [onSelect|e w w' _ IH _ Hstep];
    [apply mount_consistent | by eapply dispatch_consistent].
Qed.

Lemma play_reachable es : ∀ w w', reachable w → play es w = Some w' → reachable w'.
Proof.
  induction es as [|e es IH]; intros w w' Hw; simpl; [by intros [= <-]|].
  destruct (enabled e w) eqn:He; [|done].
  destruct (dispatch e w) as [w1|] eqn:Hd; [|done].
  apply IH. by eapply reachable_step.
Qed.

(** In a reachable state with results on display the highlight is -1 or an
    index of those results. *)
Lemma reachable_highlight_valid w r :
  reachable w → data w = Some r →
  (selectedIndex w = -1 ∨ 0 ≤ selectedIndex w < Z.of_nat (length (items r)))%Z.
Proof.
  intros (_ & (_ & _ & Hi) & _ & Hs & _)%reachable_consistent Hd. eauto.
Qed.

Lemma commit_resets v :
  rid <$> data v ≠ depData v → selectedIndex (commit v) = (-1)%Z.
Proof.
  intros Hv. unfold_effects.
  repeat (case_decide || case_match); simpl in *; congruence.
Qed.

Lemma commit_idle v : depQuery v = query v → sameSchedule v (commit v).
Proof.
  intros Hq. unfold sameSchedule. unfold_effects.
  destruct (decide (query v = depQuery v)); [|congruence]. by case_decide.
Qed.

Lemma render_idle v : depQuery v = query v → sameSchedule v (render v).
Proof.
  intros Hq. destruct (commit_idle v Hq) as (Ht & Hc & Hn & Hd & Hda).
  unfold render. case_decide; [by repeat split|].
  destruct (commit_view v) as (_ & _ & Hquery & _).
  destruct (commit_idle (commit v)) as (Ht2 & Hc2 & Hn2 & Hd2 & Hda2);
    [congruence|].
  repeat split; congruence.
Qed.

Lemma update_idle w v : depQuery v = query v → sameSchedule v (update w v).
Proof.
  intros Hq. unfold update. case_decide; [by repeat split | by apply render_idle].
Qed.

(** In a reachable state the arrival of a response puts the highlight back
    to -1. *)
Lemma respond_resets_highlight w l w' :
  reachable w → dispatch (Respond l) w = Normal w' →
  selectedIndex w' = (-1)%Z ∧ (items <$> data w') = Some l.
Proof.
  intros (_ & (Hk & _ & _) & Hdq & _)%reachable_consistent [= <-].
  assert (selectedIndex (commit (respond l w)) = (-1)%Z) as Hc.
  { apply commit_resets. simpl. intros Heq. symmetry in Heq.
    specialize (Hk _ Heq). lia. }
  split.
  - unfold render. case_decide; [done|].
    destruct (commit_index (commit (respond l w))); congruence.
  - destruct (render_idle (respond l w)) as (_ & _ & _ & _ & ->); done.
Qed.

(** ** The debounce timer *)

Lemma commit_changed v :
  timersOk v → query v ≠ depQuery v → afterEdit (commit v).
Proof.
  intros Ht Hne. unfold afterEdit, armed, loadsDue.
  destruct (commit_view v) as (_ & _ & -> & _ & _ & _ & -> & _).
  destruct (timersInv_cleared _ _ _ _ Ht) as [Hno _].
  assert (timers (commit v)
          = timers (set_depQuery (query v) (debounceEffect (debounceCleanup v)))
          ∧ data (commit v)
            = data (set_depQuery (query v) (debounceEffect (debounceCleanup v))))
    as [-> ->].
  { unfold commit. destruct (decide (query v = depQuery v)); [done|]. by case_decide. }
  unfold debounceEffect, debounceCleanup, setTimeout, clearTimeout.
  destruct (cleanup v) as [c|]; simpl in *;
    destruct (JS.truthy (JS.trim (query v))); simpl; try done.
  all: split;
    [ eexists; split; [apply elem_of_app; right; by apply list_elem_of_singleton | done]
    | intros t [Hin | ->%list_elem_of_singleton]%elem_of_app Hl; [|done];
      rewrite (Hno t Hin) in Hl; done ].
Qed.

Lemma afterEdit_same w w' :
  query w' = query w → now w' = now w → timers w' = timers w → data w' = data w →
  afterEdit w → afterEdit w'.
Proof.
  unfold afterEdit, armed, loadsDue. by intros -> -> -> ->.
Qed.

Lemma render_changed v :
  timersOk v → query v ≠ depQuery v → afterEdit (render v).
Proof.
  intros Ht Hne. pose proof (commit_changed v Ht Hne) as Hc.
  unfold render. case_decide; [done|].
  destruct (commit_rendered v) as [Hq _].
  destruct (commit_idle _ Hq) as (? & _ & _ & _ & ?).
  destruct (commit_view (commit v)) as (_ & _ & ? & _ & _ & _ & ? & _).
  by eapply afterEdit_same.
Qed.

Lemma change_effect w text :
  consistent w → text ≠ query w →
  let w' := update w (set_query text w) in
  consistent w' ∧ query w' = text ∧ requests w' = requests w ∧ now w' = now w
  ∧ afterEdit w'.
Proof.
  intros Hw Hne w'. pose proof Hw as (Ht & Hr & Hq & _ & Hf).
  assert (w' = render (set_query text w)) as Hw'.
  { unfold w', update. rewrite decide_False; [done|]. simpl. tauto. }
  destruct (render_view (set_query text w)) as (_ & _ & ? & _ & ? & _ & ? & _).
  rewrite Hw'. split; [by apply render_consistent|].
  repeat split; [done..|].
  apply render_changed; [done|]. simpl. congruence.
Qed.

(** ** Running timers *)

Lemma earliest_spec ts :
  match earliest ts with
  | Some t => t ∈ ts ∧ ∀ u, u ∈ ts → due t ≤ due u
  | None => ts = []
  end.
Proof.
  induction ts as [|t ts IH]; simpl; [done|].
  destruct (earliest ts) as [u|].
  - destruct IH as [Hin Hmin]. destruct (Nat.ltb_spec (due u) (due t)).
    + split; [by right|]. intros v [->|Hv]%elem_of_cons; [lia | auto].
    + split; [by left|]. intros v [->|Hv]%elem_of_cons; [lia|].
      specialize (Hmin v Hv). lia.
  - subst ts. split; [by left|]. by intros v ->%list_elem_of_singleton.
Qed.

Lemma runCallback_schedule cb w :
  depQuery w = query w →
  timers (runCallback cb w) = timers w
  ∧ query (runCallback cb w) = query w
  ∧ requests (runCallback cb w)
    = requests w ++ (match cb with
                     | LoadSuggestions q => [suggestionsHref q]
                     | Unfocus => []
                     end).
Proof.
  intros Hq. destruct cb as [q|]; simpl.
  - destruct (render_idle (fetcher_load (suggestionsHref q) w)) as (-> & _); [done|].
    destruct (render_view (fetcher_load (suggestionsHref q) w))
      as (_ & _ & -> & _ & -> & _). done.
  - destruct (update_idle w (set_isFocused false w)) as (-> & _); [done|].
    destruct (update_view w (set_isFocused false w)) as (_ & _ & -> & _ & -> & _).
    by rewrite app_nil_r.
Qed.

Lemma runTimers_quiet fuel until : ∀ w,
  consistent w →
  (∀ t, t ∈ timers w → isLoad (callback t) = true → until < due t) →
  requests (runTimers fuel until w) = requests w
  ∧ query (runTimers fuel until w) = query w.
Proof.
  induction fuel as [|fuel IH]; intros w Hw Hlate; simpl; [done|].
  pose proof (earliest_spec (timers w)) as He.
  destruct (earliest (timers w)) as [t|]; [|done].
  destruct He as [Hin _].
  destruct (Nat.leb_spec (due t) until) as [Hdue|]; [|done].
  destruct (isLoad (callback t)) eqn:Hl.
  { specialize (Hlate t Hin Hl). lia. }
  pose proof (fired_consistent (tid t) (max (now w) (due t)) w Hw) as Hf.
  fold (fired t w) in Hf |- *.
  destruct (runCallback_schedule (callback t) (fired t w)) as (Hts & Hq & Hrq);
    [apply Hf|].
  destruct (IH (runCallback (callback t) (fired t w))) as [-> ->].
  - by apply runCallback_consistent.
  - rewrite Hts. simpl. intros u [_ Hu]%list_elem_of_filter. by apply Hlate.
  - rewrite Hq, Hrq. destruct (callback t); [done|]. by rewrite app_nil_r.
Qed.

Lemma runTimers_fire fuel until d : ∀ w,
  consistent w → armed w → loadsDue d w → d ≤ until →
  length (timers w) < fuel →
  requests (runTimers fuel until w) = requests w ++ [suggestionsHref (query w)].
Proof.
  induction fuel as [|fuel IH]; intros w Hw (t0 & Hin0 & Hl0) Hd Hle Hfuel;
    simpl; [lia|].
  pose proof Hw as ((_ & _ & Hkind) & _ & Hq & _).
  pose proof (earliest_spec (timers w)) as He.
  destruct (earliest (timers w)) as [t|]; [|by rewrite He in Hin0; apply elem_of_nil in Hin0].
  destruct He as [Hin Hmin].
  pose proof (Hmin t0 Hin0) as Hmin0. rewrite (Hd t0 Hin0 Hl0) in Hmin0.
  destruct (Nat.leb_spec (due t) until) as [_|]; [|lia].
  pose proof (fired_consistent (tid t) (max (now w) (due t)) w Hw) as Hf.
  fold (fired t w) in Hf |- *.
  destruct (runCallback_schedule (callback t) (fired t w)) as (Hts & Hqu & Hrq);
    [apply Hf|].
  pose proof (runCallback_consistent (callback t) _ Hf) as Hrun.
  pose proof (Hkind t Hin) as Ht. pose proof (Hkind t0 Hin0) as Ht0.
  rewrite Hl0 in Ht0. destruct Ht0 as (Hc0 & _ & _).
  destruct (isLoad (callback t)) eqn:Hl.
  - (* the debounce timer itself *)
    destruct Ht as (Hc & Hcb & _).
    destruct (runTimers_quiet fuel until _ Hrun) as [-> _].
    + rewrite Hts. simpl. intros u [Hne Hu]%list_elem_of_filter Hlu.
      pose proof (Hkind u Hu) as Hku. rewrite Hlu in Hku. destruct Hku as (Hcu & _).
      congruence.
    + rewrite Hrq, Hcb. simpl. by rewrite Hq.
  - (* another timer comes first *)
    rewrite IH; [by rewrite Hrq, Hqu; destruct (callback t); [|rewrite app_nil_r]
                | done | | | done |].
    + exists t0. split; [|done]. rewrite Hts. simpl.
      apply list_elem_of_filter. split; [congruence | done].
    + intros u. rewrite Hts. simpl. intros [_ Hu]%list_elem_of_filter. by apply Hd.
    + rewrite Hts. simpl.
      pose proof (length_filter_lt (λ x, tid x ≠ tid t) (timers w) t Hin) as Hlt.
      assert (length (filter (λ x, tid x ≠ tid t) (timers w)) < length (timers w))
        by (apply Hlt; tauto).
      lia.
Qed.

(** The fuel [elapse] gives is enough: the clock reaches its target and no
    timer that has come due is left in the queue. *)
Lemma runTimers_done fuel until : ∀ w,
  consistent w → length (timers w) < fuel →
  now (runTimers fuel until w) = until
  ∧ ∀ t, t ∈ timers (runTimers fuel until w) → until < due t.
Proof.
  induction fuel as [|fuel IH]; intros w Hw Hfuel; simpl; [lia|].
  pose proof (earliest_spec (timers w)) as He.
  destruct (earliest (timers w)) as [t|].
  - destruct He as [Hin Hmin].
    destruct (Nat.leb_spec (due t) until) as [Hdue|Hlate].
    + pose proof (fired_consistent (tid t) (max (now w) (due t)) w Hw) as Hf.
      fold (fired t w) in Hf |- *.
      destruct (runCallback_schedule (callback t) (fired t w)) as (Hts & _);
        [apply Hf|].
      apply IH; [by apply runCallback_consistent|].
      rewrite Hts. simpl.
      assert (length (filter (λ x, tid x ≠ tid t) (timers w)) < length (timers w))
        by (apply (length_filter_lt _ _ t Hin); tauto).
      lia.
    + split; [done|]. simpl. intros u Hu. specialize (Hmin u Hu). lia.
  - split; [done|]. simpl. rewrite He. by intros u ?%elem_of_nil.
Qed.

Lemma elapse_done w ms :
  consistent w →
  now (elapse ms w) = now w + ms
  ∧ ∀ t, t ∈ timers (elapse ms w) → now w + ms < due t.
Proof. intros Hw. apply runTimers_done; [done | lia]. Qed.

(** From a state just edited, a pause shorter than the debounce delay
    issues nothing. *)
Lemma elapse_short w ms :
  consistent w → afterEdit w → ms < 300 →
  requests (elapse ms w) = requests w ∧ query (elapse ms w) = query w.
Proof.
  intros Hw Ha Hms. apply runTimers_quiet; [done|].
  intros t Hin Hl. unfold afterEdit in Ha.
  destruct (JS.truthy (JS.trim (query w))).
  - destruct Ha as [_ Hd]. rewrite (Hd t Hin Hl). lia.
  - destruct Ha as [Hno _]. rewrite (Hno t Hin) in Hl. done.
Qed.

(** From a state just edited, what a pause of any length issues. *)
Lemma elapse_after_edit w ms :
  consistent w → afterEdit w →
  requests (elapse ms w)
  = requests w ++ (if (300 <=? ms) && JS.truthy (JS.trim (query w))
                   then [suggestionsHref (query w)] else []).
Proof.
  intros Hw Ha. destruct (Nat.leb_spec 300 ms) as [Hlong|Hshort]; simpl.
  - unfold afterEdit in Ha. destruct (JS.truthy (JS.trim (query w))).
    + destruct Ha as [Harm Hd].
      eapply runTimers_fire; [done | done | exact Hd | lia | lia].
    + destruct Ha as [Hno _]. rewrite app_nil_r.
      apply runTimers_quiet; [done|].
      intros t Hin Hl. rewrite (Hno t Hin) in Hl. done.
  - rewrite app_nil_r. by apply elapse_short.
Qed.

(** ** A burst of edits *)

Lemma burst_requests quiet w' : ∀ rest w,
  consistent w → afterEdit w →
  Forall (λ p, p.1 < 300) rest →
  play (typing rest ++ [Elapse quiet]) w = Some w' →
  requests w'
  = requests w ++ (if (300 <=? quiet) && JS.truthy (JS.trim (finalText (query w) rest))
                   then [suggestionsHref (finalText (query w) rest)] else []).
Proof.
  induction rest as [|[pause text] rest IH]; intros w Hw Ha Hp; simpl.
  - intros [= <-]. by apply elapse_after_edit.
  - apply Forall_cons in Hp as [Hpause Hp]. simpl in Hpause.
    destruct (inputFocused (elapse pause w) && _) eqn:Hen; [|done].
    apply andb_true_iff in Hen as [_ Hne%negb_true_iff%String.eqb_neq].
    destruct (elapse_short w pause Hw Ha Hpause) as [Hrq Hq].
    pose proof (runTimers_consistent _ _ _ Hw : consistent (elapse pause w)) as Hw1.
    destruct (change_effect (elapse pause w) text Hw1 Hne) as (Hw2 & Hq2 & Hrq2 & _ & Ha2).
    intros Hplay. rewrite (IH _ Hw2 Ha2 Hp Hplay). by rewrite Hrq2, Hrq, Hq2.
Qed.

(** C3. Take a reachable widget and a burst of edits of the input, each
    bringing a new text and each less than 300 ms after the one before,
    followed by a pause of any length. Over the whole run the widget issues
    no request at all, or exactly one, and that one is for the text of the
    last edit: it is issued when the final pause reaches 300 ms and that
    text is not blank. *)
Theorem debounce_single_request
    (w w' : TypeAhead) (first : string) (rest : list (nat * string)) (quiet : nat) :
  reachable w →
  Forall (λ p, p.1 < 300) rest →
  play (Change first :: typing rest ++ [Elapse quiet]) w = Some w' →
  requests w'
  = requests w ++ (if (300 <=? quiet) && JS.truthy (JS.trim (finalText first rest))
                   then [suggestionsHref (finalText first rest)] else []).
Proof.
  intros Hw%reachable_consistent Hp. simpl.
  destruct (inputFocused w && _) eqn:Hen; [|done].
  apply andb_true_iff in Hen as [_ Hne%negb_true_iff%String.eqb_neq].
  destruct (change_effect w first Hw Hne) as (Hw1 & Hq1 & Hrq1 & _ & Ha1).
  intros Hplay. rewrite (burst_requests _ _ _ _ Hw1 Ha1 Hp Hplay).
  by rewrite Hrq1, Hq1.
Qed.

Lemma debounce_single_request_witness :
  ∃ w', play [Change "a"; Elapse 100; Change "an"; Elapse 250; Change "ana"; Elapse 300]
          focused = Some w'
        ∧ requests w' = ["/api/suggestions?q=ana"].
Proof.
  eexists. split; [vm_compute; reflexivity|].
  apply (debounce_single_request focused _ "a" [(100, "an"); (250, "ana")] 300).
  - apply (play_reachable [Focus] (mount true)); [constructor | vm_compute; reflexivity].
  - repeat constructor; simpl; lia.
  - vm_compute. reflexivity.
Defined.

(** ** What the router holds *)

Lemma commit_held w : held (commit w) = held w.
Proof. unfold_effects. repeat (case_decide || case_match); simpl; done. Qed.

Lemma render_held w : held (render w) = held w.
Proof. unfold render. case_decide; by rewrite ?commit_held. Qed.




(** ** Clearing the input *)



(** ** The highlight and the results *)

(** C7. The highlight can outlive the results it pointed into: after the
    three matches of "an" arrived and ArrowDown highlighted the first, an
    edit that empties the input clears [fetcher.data] inside the first
    effect, where the second effect's dependency list does not see it; the
    state that results is reachable, has no results, and has the highlight
    still at 0. *)
Theorem highlight_outlives_cleared_results :
  ∃ w,
    play [Focus; Change "an"; Elapse 300; Respond threeResults;
          KeyDown "ArrowDown"; Change ""] (mount true) = Some w
    ∧ reachable w
    ∧ data w = None
    ∧ selectedIndex w = 0%Z.
Proof.
  eexists. split; [vm_compute; reflexivity|].
  split; [|split; reflexivity].
  apply (play_reachable
           [Focus; Change "an"; Elapse 300; Respond threeResults;
            KeyDown "ArrowDown"; Change ""] (mount true));
    [constructor | vm_compute; reflexivity].
Qed.

(** ** The arrows *)

Lemma commit_keeps_data v : JS.trim (query v) ≠ "" → data (commit v) = data v.
Proof.
  intros Hq%truthy_true. unfold_effects.
  destruct (cleanup v); simpl; rewrite Hq; simpl;
    repeat case_decide; simpl; done.
Qed.

Lemma update_keeps_data w v : JS.trim (query v) ≠ "" → data (update w v) = data v.
Proof.
  intros Hq. unfold update. case_decide; [done|].
  unfold render. pose proof (commit_keeps_data v Hq) as Hd. case_decide; [done|].
  rewrite commit_keeps_data; [done|].
  by destruct (commit_view v) as (_ & _ & -> & _).
Qed.

Lemma arrowDown_dispatch w :
  JS.trim (query w) ≠ "" → 0 < dataLength w → settled w →
  ∃ w', dispatch (KeyDown "ArrowDown") w = Normal w'
        ∧ selectedIndex w'
          = (if selectedIndex w <? Z.of_nat (dataLength w) - 1
             then selectedIndex w + 1 else selectedIndex w)%Z
        ∧ query w' = query w ∧ data w' = data w ∧ settled w'.
Proof.
  intros Hq Hl Hs. pose proof (guard_open w Hq Hl) as Hg.
  apply dataLength_pos in Hl as (r & Hd & _).
  unfold dispatch, handleKeyDown. simpl query. rewrite Hg. simpl.
  set (v := set_selectedIndex _ w). exists (update w v).
  split; [done|]. split.
  { apply update_settled_index. simpl. by rewrite Hd, (Hs r Hd). }
  split.
  { by destruct (update_view w v) as (_ & _ & -> & _). }
  split.
  { by rewrite update_keeps_data. }
  unfold update. case_decide; [done | apply render_rendered].
Qed.

(** C5, as the code has it. When three results arrive in a reachable widget
    whose query is not blank, the highlight is at -1; the first ArrowDown
    takes it to 0, the second to 1, the third to 2, the last index, and a
    fourth leaves it at 2. *)
Theorem arrow_down_from_fresh_results (w : TypeAhead) (l : list Suggestion) :
  reachable w → JS.trim (query w) ≠ "" → length l = 3 →
  ∃ w0 w1 w2 w3 w4,
    dispatch (Respond l) w = Normal w0 ∧ selectedIndex w0 = (-1)%Z
    ∧ dispatch (KeyDown "ArrowDown") w0 = Normal w1 ∧ selectedIndex w1 = 0%Z
    ∧ dispatch (KeyDown "ArrowDown") w1 = Normal w2 ∧ selectedIndex w2 = 1%Z
    ∧ dispatch (KeyDown "ArrowDown") w2 = Normal w3 ∧ selectedIndex w3 = 2%Z
    ∧ dispatch (KeyDown "ArrowDown") w3 = Normal w4 ∧ selectedIndex w4 = 2%Z.
Proof.
  intros Hw Hq Hlen.
  destruct (respond_resets_highlight w l _ Hw eq_refl) as [Hi0 Hd0].
  assert (query (render (respond l w)) = query w) as Hq0
    by (by destruct (render_view (respond l w)) as (_ & _ & -> & _)).
  assert (settled (render (respond l w))) as Hs0 by apply render_rendered.
  set (w0 := render (respond l w)) in *.
  assert (dataLength w0 = 3) as Hl0.
  { unfold dataLength. destruct (data w0) as [r|]; [|done].
    simpl in Hd0. by injection Hd0 as ->. }
  assert (∀ v i, dataLength v = 3 → JS.trim (query v) ≠ "" → settled v →
                 selectedIndex v = i →
                 ∃ v', dispatch (KeyDown "ArrowDown") v = Normal v'
                       ∧ selectedIndex v' = (if i <? 2 then i + 1 else i)%Z
                       ∧ dataLength v' = 3 ∧ JS.trim (query v') ≠ "" ∧ settled v')
    as Hstep.
  { intros v i Hl Hqv Hsv Hi.
    destruct (arrowDown_dispatch v) as (v' & Hv & Hi' & Hq' & Hd' & Hs'); [done | lia | done |].
    exists v'. rewrite Hl, Hi in Hi'. unfold dataLength. rewrite Hd', Hq'.
    fold (dataLength v). done. }
  destruct (Hstep w0 _ Hl0 ltac:(congruence) Hs0 Hi0) as (w1 & H1 & Hi1 & Hl1 & Hq1 & Hs1).
  destruct (Hstep w1 _ Hl1 Hq1 Hs1 Hi1) as (w2 & H2 & Hi2 & Hl2 & Hq2 & Hs2).
  destruct (Hstep w2 _ Hl2 Hq2 Hs2 Hi2) as (w3 & H3 & Hi3 & Hl3 & Hq3 & Hs3).
  destruct (Hstep w3 _ Hl3 Hq3 Hs3 Hi3) as (w4 & H4 & Hi4 & _).
  exists w0, w1, w2, w3, w4. repeat split; done.
Qed.

Lemma arrow_down_from_fresh_results_witness :
  ∃ w0 w1 w2 w3 w4,
    dispatch (Respond threeResults) awaitingAn = Normal w0 ∧ selectedIndex w0 = (-1)%Z
    ∧ dispatch (KeyDown "ArrowDown") w0 = Normal w1 ∧ selectedIndex w1 = 0%Z
    ∧ dispatch (KeyDown "ArrowDown") w1 = Normal w2 ∧ selectedIndex w2 = 1%Z
    ∧ dispatch (KeyDown "ArrowDown") w2 = Normal w3 ∧ selectedIndex w3 = 2%Z
    ∧ dispatch (KeyDown "ArrowDown") w3 = Normal w4 ∧ selectedIndex w4 = 2%Z.
Proof.
  apply (arrow_down_from_fresh_results awaitingAn threeResults).
  - apply (play_reachable [Focus; Change "an"; Elapse 300] (mount true));
      [constructor | vm_compute; reflexivity].
  - vm_compute. discriminate.
  - reflexivity.
Defined.

(** C5, as stated, fails: from the freshly arrived three matches of "an",
    with the highlight reset to -1, two presses of ArrowDown leave the
    highlight at 1, not at 2; and when the three matches arrive after the
    input was replaced by a space, the two presses leave it at -1. *)
Lemma arrow_down_twice_counterexample :
  (∃ w0 w2,
     play [Focus; Change "an"; Elapse 300; Respond threeResults] (mount true) = Some w0
     ∧ dataLength w0 = 3 ∧ selectedIndex w0 = (-1)%Z
     ∧ play [KeyDown "ArrowDown"; KeyDown "ArrowDown"] w0 = Some w2
     ∧ selectedIndex w2 = 1%Z
     ∧ selectedIndex w2 ≠ 2%Z)
  ∧ (∃ w0 w2,
       play [Focus; Change "an"; Elapse 300; Change " "; Respond threeResults]
         (mount true) = Some w0
       ∧ dataLength w0 = 3 ∧ selectedIndex w0 = (-1)%Z
       ∧ play [KeyDown "ArrowDown"; KeyDown "ArrowDown"] w0 = Some w2
       ∧ selectedIndex w2 = (-1)%Z
       ∧ selectedIndex w2 ≠ 2%Z).
Proof.
  split; eexists; eexists; (split; [vm_compute; reflexivity|]);
    (split; [reflexivity|]); (split; [reflexivity|]);
    (split; [vm_compute; reflexivity|]);
    (split; [reflexivity | discriminate]).
Qed.

(** C6, with the guard of the handler. In a reachable widget with a query
    that is not blank and [n] > 0 results on display, ArrowDown takes the
    highlight [i] to [i + 1] as long as [i < n - 1] and leaves it at
    [n - 1] once there, so it never passes the last index and never wraps;
    ArrowUp takes it to [i - 1] as long as [i > 0] and leaves it alone at 0
    and at -1 (none), so it never wraps below the first entry. *)
Theorem arrows_step_and_clamp (w : TypeAhead) :
  reachable w → JS.trim (query w) ≠ "" → 0 < dataLength w →
  let n := Z.of_nat (dataLength w) in
  let i := selectedIndex w in
  ((∃ w', dispatch (KeyDown "ArrowDown") w = Normal w'
          ∧ (i < n - 1 → selectedIndex w' = i + 1)
          ∧ (i = n - 1 → selectedIndex w' = n - 1)
          ∧ selectedIndex w' ≤ n - 1)
   ∧ (∃ w', dispatch (KeyDown "ArrowUp") w = Normal w'
            ∧ (0 < i → selectedIndex w' = i - 1)
            ∧ (i = 0 → selectedIndex w' = 0)
            ∧ (i = -1 → selectedIndex w' = -1)
            ∧ -1 ≤ selectedIndex w'))%Z.
Proof.
  intros Hw Hq Hl n i.
  pose proof (reachable_consistent w Hw) as (_ & _ & _ & Hs & _).
  assert (i = -1 ∨ 0 ≤ i < n)%Z as Hi.
  { pose proof Hl as (r & Hd & _)%dataLength_pos.
    unfold n, dataLength. rewrite Hd. by apply reachable_highlight_valid. }
  split.
  - destruct (arrowDown_dispatch w Hq Hl Hs) as (w' & Hstep & Hidx & _).
    exists w'. split; [done|]. fold n i in Hidx. rewrite Hidx.
    destruct (Z.ltb_spec i (n - 1)); repeat split; lia.
  - pose proof (guard_open w Hq Hl) as Hg.
    pose proof Hl as (r & Hd & _)%dataLength_pos.
    unfold dispatch, handleKeyDown. simpl query. rewrite Hg. simpl.
    eexists. split; [reflexivity|].
    rewrite update_settled_index by (simpl; by rewrite Hd, (Hs r Hd)).
    simpl. fold i. destruct (Z.gtb_spec i 0); repeat split; lia.
Qed.

Lemma arrows_step_and_clamp_witness :
  (∃ w', dispatch (KeyDown "ArrowDown") openWithThree = Normal w'
         ∧ selectedIndex w' = 0%Z)
  ∧ (∃ w', dispatch (KeyDown "ArrowUp") openWithThree = Normal w'
           ∧ selectedIndex w' = (-1)%Z).
Proof.
  destruct (arrows_step_and_clamp openWithThree)
    as [(w1 & H1 & Hd & _) (w2 & H2 & _ & _ & Hu & _)].
  - apply (play_reachable [Focus; Change "an"; Elapse 300; Respond threeResults]
             (mount true)); [constructor | vm_compute; reflexivity].
  - vm_compute. discriminate.
  - vm_compute. lia.
  - split; [exists w1 | exists w2]; (split; [done|]).
    + apply Hd. vm_compute. done.
    + apply Hu. vm_compute. done.
Defined.

(** ** Keys on stale results *)

Lemma staleResults_reachable :
  play [Focus; Change "an"; Elapse 300; Change " "; Respond threeResults] (mount true)
  = Some staleResults
  ∧ reachable staleResults.
Proof.
  assert (play [Focus; Change "an"; Elapse 300; Change " "; Respond threeResults]
            (mount true) = Some staleResults) as Hplay by (vm_compute; reflexivity).
  split; [done|]. eapply play_reachable; [constructor | exact Hplay].
Qed.

(** C4, as stated, fails: three results are stored and [onSelect] is given,
    but the query is blank, and Enter selects nothing: the widget is left as
    it was, the query text is not "Banana", [onSelect] was not called. *)
Lemma enter_on_stale_results_counterexample :
  reachable staleResults
  ∧ (items <$> data staleResults) = Some threeResults
  ∧ hasOnSelect staleResults = true
  ∧ dispatch (KeyDown "Enter") staleResults = Normal staleResults
  ∧ query staleResults ≠ "Banana"
  ∧ isFocused staleResults = true
  ∧ selected staleResults = [].
Proof.
  split; [apply staleResults_reachable|].
  repeat split; try (vm_compute; reflexivity). vm_compute. discriminate.
Qed.

(** C6, as stated, fails: three results are stored and the highlight is at
    -1, below the last index, but the query is blank, and ArrowDown does not
    move the highlight. *)
Lemma arrow_down_on_stale_results_counterexample :
  reachable staleResults
  ∧ dataLength staleResults = 3
  ∧ selectedIndex staleResults = (-1)%Z
  ∧ ∃ w', dispatch (KeyDown "ArrowDown") staleResults = Normal w'
          ∧ selectedIndex w' = (-1)%Z
          ∧ selectedIndex w' ≠ 0%Z.
Proof.
  split; [apply staleResults_reachable|].
  split; [reflexivity|]. split; [reflexivity|].
  eexists. split; [vm_compute; reflexivity|]. split; [reflexivity | discriminate].
Qed.

(** C9, as stated, fails: the query text is not empty (one space), three
    results are stored, the input has the focus, and Escape takes the focus
    from nothing: the input keeps it and [isFocused] stays true. *)
Lemma escape_on_stale_results_counterexample :
  reachable staleResults
  ∧ query staleResults = " " ∧ query staleResults ≠ ""
  ∧ dataLength staleResults = 3
  ∧ inputFocused staleResults = true
  ∧ ∃ w', dispatch (KeyDown "Escape") staleResults = Normal w'
          ∧ inputFocused w' = true
          ∧ isFocused w' = true.
Proof.
  split; [apply staleResults_reachable|].
  split; [reflexivity|]. split; [vm_compute; discriminate|].
  split; [reflexivity|]. split; [reflexivity|].
  eexists. split; [vm_compute; reflexivity|]. split; reflexivity.
Qed.

(** * Further properties of the endpoint *)

Section QueryNormalForm.

Implicit Types (s t pre post : string) (c : ascii).

Lemma append_assoc s t u : (s +:+ t) +:+ u = s +:+ t +:+ u.
Proof. induction s as [|c s IH]; [done|]. by rewrite !append_cons, IH. Qed.

Lemma append_empty_r s : s +:+ "" = s.
Proof. induction s as [|c s IH]; [done|]. by rewrite append_cons, IH. Qed.

Lemma lowerChar_idem c : JS.lowerChar (JS.lowerChar c) = JS.lowerChar c.
Proof. destruct c as [[] [] [] [] [] [] [] []]; reflexivity. Qed.

Lemma isWhiteSpace_lowerChar c : JS.isWhiteSpace (JS.lowerChar c) = JS.isWhiteSpace c.
Proof. destruct c as [[] [] [] [] [] [] [] []]; reflexivity. Qed.

Lemma toLowerCase_idem s : JS.toLowerCase (JS.toLowerCase s) = JS.toLowerCase s.
Proof. induction s as [|c s IH]; simpl; [done|]. by rewrite lowerChar_idem, IH. Qed.

Lemma trimStart_toLowerCase s :
  JS.trimStart (JS.toLowerCase s) = JS.toLowerCase (JS.trimStart s).
Proof.
  induction s as [|c s IH]; simpl; [done|].
  rewrite isWhiteSpace_lowerChar. by destruct (JS.isWhiteSpace c).
Qed.

Lemma trimEnd_toLowerCase s :
  JS.trimEnd (JS.toLowerCase s) = JS.toLowerCase (JS.trimEnd s).
Proof.
  induction s as [|c s IH]; simpl; [done|].
  rewrite IH, isWhiteSpace_lowerChar.
  destruct (JS.trimEnd s); simpl; [by destruct (JS.isWhiteSpace c) | done].
Qed.

Lemma trim_toLowerCase s : JS.trim (JS.toLowerCase s) = JS.toLowerCase (JS.trim s).
Proof. unfold JS.trim. by rewrite trimStart_toLowerCase, trimEnd_toLowerCase. Qed.

Lemma trimEnd_whiteSpaceOnly s : whiteSpaceOnly s = true → JS.trimEnd s = "".
Proof.
  induction s as [|c s IH]; simpl; [done|].
  intros [Hc Hs]%andb_true_iff. by rewrite (IH Hs), Hc.
Qed.

Lemma trimStart_pad pre s :
  whiteSpaceOnly pre = true → JS.trimStart (pre +:+ s) = JS.trimStart s.
Proof.
  induction pre as [|c pre IH]; simpl; [done|].
  intros [Hc Hp]%andb_true_iff. rewrite ?append_cons. simpl. rewrite Hc. auto.
Qed.

Lemma trimEnd_pad s post :
  whiteSpaceOnly post = true → JS.trimEnd (s +:+ post) = JS.trimEnd s.
Proof.
  intros Hp. induction s as [|c s IH]; [by apply trimEnd_whiteSpaceOnly|].
  rewrite append_cons. simpl. by rewrite IH.
Qed.

Lemma trimStart_append s post :
  JS.trimStart (s +:+ post)
  = if whiteSpaceOnly s then JS.trimStart post else JS.trimStart s +:+ post.
Proof.
  induction s as [|c s IH]; [done|].
  rewrite append_cons. simpl. destruct (JS.isWhiteSpace c); simpl; [done|].
  by rewrite append_cons.
Qed.

Lemma trim_pad pre s post :
  whiteSpaceOnly pre = true → whiteSpaceOnly post = true →
  JS.trim (pre +:+ s +:+ post) = JS.trim s.
Proof.
  intros Hpre Hpost. unfold JS.trim.
  rewrite trimStart_pad, trimStart_append by done.
  destruct (whiteSpaceOnly s) eqn:Hs.
  - by rewrite !trimStart_whiteSpaceOnly.
  - by apply trimEnd_pad.
Qed.

Lemma occursIn_trans s t u : occursIn s t → occursIn t u → occursIn s u.
Proof.
  intros (p1 & q1 & ->) (p2 & q2 & ->).
  exists (p2 +:+ p1), (q1 +:+ q2). by rewrite !append_assoc.
Qed.

End QueryNormalForm.

Lemma loader_by_query r1 r2 :
  loader_query r1 = loader_query r2 → loader r1 = loader r2.
Proof. unfold loader. by intros ->. Qed.

Lemma fruits_ids_NoDup : NoDup (id <$> fruits).
Proof. apply (bool_decide_unpack _). vm_compute. exact I. Qed.

Lemma loader_answer request :
  ∃ l, response_json (loader request) = Some l
       ∧ l `sublist_of` fruits ∧ length l ≤ 10
       ∧ ∀ s, s ∈ l →
              occursIn (loader_query request) (JS.toLowerCase (value s)).
Proof.
  destruct (JS.truthy (loader_query request)) eqn:Ht.
  - rewrite (loader_truthy _ Ht). generalize fruits (loader_query request).
    intros l needle. eexists. split; [reflexivity|].
    unfold JS.slice. rewrite drop_0. split; [|split].
    + etrans; [apply sublist_take | apply sublist_List_filter].
    + rewrite length_take. lia.
    + intros s Hs. eapply elem_of_sublist in Hs; [|apply sublist_take].
      by apply elem_of_filter_includes in Hs as [_ ?].
  - rewrite (loader_falsy _ Ht). exists []. split; [reflexivity|].
    split; [apply sublist_nil_l|]. split; [simpl; lia|]. by intros s ?%elem_of_nil.
Qed.

(** X1. Whatever the request, the loader answers with status 200 and a body
    that decodes to an array: a subsequence of [fruits] of at most 10
    entries, whose ids are pairwise distinct. *)
Theorem loader_always_answers (request : Request) :
  status (loader request) = 200
  ∧ ∃ l, response_json (loader request) = Some l
         ∧ l `sublist_of` fruits
         ∧ length l ≤ 10
         ∧ NoDup (id <$> l).
Proof.
  split.
  - unfold loader. by destruct (negb _).
  - destruct (loader_answer request) as (l & Hl & Hsub & Hlen & _).
    exists l. repeat split; try done.
    eapply sublist_NoDup; [apply fruits_ids_NoDup | by apply fmap_sublist].
Qed.

(** X2. White space around the query does not change the answer: a [q]
    padded on both sides with white space gets the response of [q]. *)
Theorem loader_ignores_padding (r1 r2 : Request) (pre q post : string) :
  whiteSpaceOnly pre = true → whiteSpaceOnly post = true →
  searchParams_get "q" (searchParams r1) = Some (pre +:+ q +:+ post) →
  searchParams_get "q" (searchParams r2) = Some q →
  loader r1 = loader r2.
Proof.
  intros Hpre Hpost H1 H2. apply loader_by_query.
  unfold loader_query. by rewrite H1, H2, trim_pad.
Qed.

Lemma loader_ignores_padding_witness :
  loader {| searchParams := [("q", "  an ")] |}
  = loader {| searchParams := [("q", "an")] |}.
Proof.
  apply (loader_ignores_padding _ _ "  " "an" " "); reflexivity.
Defined.

(** X3. The letter case of the query does not change the answer: two
    queries with the same lower-cased form get the same response. *)
Theorem loader_ignores_case (r1 r2 : Request) (q1 q2 : string) :
  searchParams_get "q" (searchParams r1) = Some q1 →
  searchParams_get "q" (searchParams r2) = Some q2 →
  JS.toLowerCase q1 = JS.toLowerCase q2 →
  loader r1 = loader r2.
Proof.
  intros H1 H2 Hcase. apply loader_by_query.
  unfold loader_query. by rewrite H1, H2, <- !trim_toLowerCase, Hcase.
Qed.

Lemma loader_ignores_case_witness :
  loader {| searchParams := [("q", "BERRY")] |}
  = loader {| searchParams := [("q", "Berry")] |}.
Proof.
  apply (loader_ignores_case _ _ "BERRY" "Berry"); reflexivity.
Defined.

(** X4. A longer query narrows the search: when the normal form of one query
    occurs in the normal form of another, every entry returned for the
    second is an entry of [fruits] whose lower-cased value contains the
    first. *)
Theorem loader_narrows (r1 r2 : Request) (l2 : list Suggestion) :
  occursIn (loader_query r1) (loader_query r2) →
  response_json (loader r2) = Some l2 →
  ∀ s, s ∈ l2 →
       s ∈ fruits ∧ occursIn (loader_query r1) (JS.toLowerCase (value s)).
Proof.
  intros Hocc Hl2 s Hs.
  destruct (loader_answer r2) as (l & Hl & Hsub & _ & Hall).
  rewrite Hl in Hl2. injection Hl2 as <-. split.
  - by eapply elem_of_sublist.
  - eapply occursIn_trans; [exact Hocc | by apply Hall].
Qed.

Lemma loader_narrows_witness :
  response_json (loader {| searchParams := [("q", "Berry")] |})
  = Some [mk "blackberry" "Blackberry"; mk "blueberry" "Blueberry";
          mk "raspberry" "Raspberry"; mk "strawberry" "Strawberry"]
  ∧ ∀ s, s ∈ [mk "blackberry" "Blackberry"; mk "blueberry" "Blueberry";
              mk "raspberry" "Raspberry"; mk "strawberry" "Strawberry"] →
         s ∈ fruits ∧ occursIn "er" (JS.toLowerCase (value s)).
Proof.
  split; [vm_compute; reflexivity|].
  apply (loader_narrows {| searchParams := [("q", "er")] |}
           {| searchParams := [("q", "Berry")] |}).
  - exists "b", "ry". reflexivity.
  - vm_compute. reflexivity.
Defined.

(** * The href round trip *)

Section HrefRoundTrip.

Implicit Types (s t rest : string) (c sep : ascii).

Lemma encodeURIComponent_cons c s :
  JS.encodeURIComponent (String c s) = encodeUnit c +:+ JS.encodeURIComponent s.
Proof. reflexivity. Qed.

Lemma allChars_append P s t : allChars P (s +:+ t) = allChars P s && allChars P t.
Proof.
  induction s as [|c s IH]; [done|].
  rewrite append_cons. simpl. by rewrite IH, andb_assoc.
Qed.

Lemma allChars_impl (P Q : ascii → bool) s :
  (∀ c, P c = true → Q c = true) → allChars P s = true → allChars Q s = true.
Proof.
  intros HPQ. induction s as [|c s IH]; simpl; [done|].
  intros [Hc Hs]%andb_true_iff. by rewrite (HPQ c Hc), IH.
Qed.

Lemma encodeUnit_alphabet c :
  allChars (λ d, JS.isUnreserved d || Ascii.eqb d "%") (encodeUnit c) = true.
Proof. destruct c as [[] [] [] [] [] [] [] []]; reflexivity. Qed.

Lemma encodeURIComponent_alphabet s :
  allChars (λ d, JS.isUnreserved d || Ascii.eqb d "%") (JS.encodeURIComponent s) = true.
Proof.
  induction s as [|c s IH]; [done|].
  by rewrite encodeURIComponent_cons, allChars_append, encodeUnit_alphabet, IH.
Qed.

Lemma formBytes_encodeUnit c rest :
  Url.formBytes (encodeUnit c +:+ rest) = JS.utf8 (JS.code c) ++ Url.formBytes rest.
Proof. destruct c as [[] [] [] [] [] [] [] []]; reflexivity. Qed.

Lemma utf8Decode_utf8 c bs :
  Url.utf8Decode (JS.utf8 (JS.code c) ++ bs) = String c <$> Url.utf8Decode bs.
Proof. destruct c as [[] [] [] [] [] [] [] []]; reflexivity. Qed.

Lemma formDecode_encodeURIComponent s :
  Url.formDecode (JS.encodeURIComponent s) = Some s.
Proof.
  unfold Url.formDecode. induction s as [|c s IH]; [done|].
  by rewrite encodeURIComponent_cons, formBytes_encodeUnit, utf8Decode_utf8, IH.
Qed.

Lemma splitFirst_absent sep s :
  allChars (λ d, negb (Ascii.eqb d sep)) s = true → Url.splitFirst sep s = (s, "").
Proof.
  induction s as [|c s IH]; simpl; [done|].
  intros [Hc Hs]%andb_true_iff. apply negb_true_iff in Hc. by rewrite Hc, IH.
Qed.

Lemma splitOn_absent sep s :
  allChars (λ d, negb (Ascii.eqb d sep)) s = true → Url.splitOn sep s = [s].
Proof.
  induction s as [|c s IH]; simpl; [done|].
  intros [Hc Hs]%andb_true_iff. apply negb_true_iff in Hc. by rewrite Hc, IH.
Qed.

Lemma encodeURIComponent_without sep s :
  JS.isUnreserved sep = false → sep ≠ "%"%char →
  allChars (λ d, negb (Ascii.eqb d sep)) (JS.encodeURIComponent s) = true.
Proof.
  intros Hsep Hpc. eapply allChars_impl; [|apply encodeURIComponent_alphabet].
  intros d Hd. apply negb_true_iff, Ascii.eqb_neq. intros ->.
  rewrite Hsep in Hd. simpl in Hd. by apply Ascii.eqb_eq in Hd.
Qed.

End HrefRoundTrip.

Lemma hrefQuery_suggestionsHref q :
  Url.hrefPath (suggestionsHref q) = "/api/suggestions"
  ∧ Url.hrefQuery (suggestionsHref q) = "q=" +:+ JS.encodeURIComponent q.
Proof.
  unfold Url.hrefPath, Url.hrefQuery, suggestionsHref.
  rewrite (splitFirst_absent "#"); [split; reflexivity|].
  rewrite allChars_append, encodeURIComponent_without by done. reflexivity.
Qed.

Lemma searchParams_parse_q q :
  Url.searchParams_parse ("q=" +:+ JS.encodeURIComponent q) = Some [("q", q)].
Proof.
  unfold Url.searchParams_parse.
  rewrite splitOn_absent
    by (rewrite allChars_append, encodeURIComponent_without by done; reflexivity).
  rewrite filter_cons_True by done. rewrite filter_nil.
  cbn [mapM mbind option_bind mret option_ret].
  change (Url.splitFirst "=" ("q=" +:+ JS.encodeURIComponent q))
    with ("q", JS.encodeURIComponent q).
  cbv beta iota.
  change (Url.formDecode "q") with (Some "q").
  by rewrite formDecode_encodeURIComponent.
Qed.

(** X5. [encodeURIComponent] writes nothing but unreserved characters and
    [%]: none of [&], [=], [+], [#], [?], [/] or a space occurs in its
    result, whatever the text. *)
Theorem encodeURIComponent_url_safe (s : string) (sep : ascii) :
  sep ∈ ["&"; "="; "+"; "#"; "?"; "/"; " "]%char →
  allChars (λ c, JS.isUnreserved c || Ascii.eqb c "%") (JS.encodeURIComponent s) = true
  ∧ allChars (λ c, negb (Ascii.eqb c sep)) (JS.encodeURIComponent s) = true.
Proof.
  intros Hsep. split; [apply encodeURIComponent_alphabet|].
  apply encodeURIComponent_without;
    repeat (apply elem_of_cons in Hsep as [->|Hsep]; [done|]);
    by apply elem_of_nil in Hsep.
Qed.

Lemma encodeURIComponent_url_safe_witness :
  allChars (λ c, JS.isUnreserved c || Ascii.eqb c "%")
    (JS.encodeURIComponent "a&b=c d") = true
  ∧ allChars (λ c, negb (Ascii.eqb c "&")) (JS.encodeURIComponent "a&b=c d") = true.
Proof.
  apply (encodeURIComponent_url_safe "a&b=c d" "&"). left.
Defined.

(** X6. The query text survives the trip through the URL: for every text,
    the search parameters read from the href the widget builds are exactly
    one pair, ["q"] and that text, and the path of the href is
    [/api/suggestions]. *)
Theorem href_round_trip (q : string) :
  Url.hrefPath (suggestionsHref q) = "/api/suggestions"
  ∧ Url.searchParams_parse (Url.hrefQuery (suggestionsHref q)) = Some [("q", q)]
  ∧ (searchParams_get "q" <$> Url.searchParams_parse (Url.hrefQuery (suggestionsHref q)))
    = Some (Some q).
Proof.
  destruct (hrefQuery_suggestionsHref q) as [Hpath ->].
  rewrite searchParams_parse_q. done.
Qed.

(** X7. The href the widget loads is routed by [app/routes.ts] to the
    module of the loader, and the loader runs on the typed text: the
    response to [/api/suggestions?q=...] built from [q] is the loader's
    response to a request whose [q] is that text. *)
Theorem widget_href_reaches_loader (q : string) :
  moduleAt (Url.hrefPath (suggestionsHref q)) = Some "routes/api-suggestions.tsx"
  ∧ serve (suggestionsHref q) = Some (loader {| searchParams := [("q", q)] |})
  ∧ loader_query {| searchParams := [("q", q)] |} = JS.toLowerCase (JS.trim q).
Proof.
  unfold serve. destruct (hrefQuery_suggestionsHref q) as [-> ->].
  rewrite searchParams_parse_q. split; [reflexivity|]. split; [reflexivity|].
  unfold loader_query. simpl. apply orElse_empty.
Qed.

(** * Further properties of the widget *)

(** ** What the handlers leave alone *)

Lemma handlerFrame_refl w : handlerFrame w w.
Proof. repeat split; auto. Qed.

Lemma blur_frame w : handlerFrame w (blur w).
Proof.
  unfold blur, onBlur, setTimeout. destruct (inputFocused w); simpl;
    [|apply handlerFrame_refl].
  repeat split. right. eexists. split; [|reflexivity]. reflexivity.
Qed.

Lemma handleSelect_frame o w w1 :
  handleSelect o w = Normal w1 →
  requests w1 = requests w ∧ hasOnSelect w1 = hasOnSelect w ∧ now w1 = now w
  ∧ state w1 = state w ∧ timers w1 = timers w
  ∧ inputFocused w1 = inputFocused w ∧ nextTid w1 = nextTid w.
Proof.
  unfold handleSelect. destruct o as [s|]; [|done]. simpl. intros [= <-].
  destruct (hasOnSelect w) eqn:Hh; simpl; rewrite ?Hh; repeat split; reflexivity.
Qed.

Lemma select_then_blur_frame o w w1 :
  handleSelect o w = Normal w1 → handlerFrame w (blur w1).
Proof.
  intros (Hr & Hh & Hn & Hp & Ht & _)%handleSelect_frame.
  destruct (blur_frame w1) as (Hr2 & Hh2 & Hn2 & Hp2 & Ht2).
  repeat split; try congruence. by rewrite <- Ht.
Qed.

Lemma handleKeyDown_frame event w event' w' :
  handleKeyDown event w = Normal (event', w') → handlerFrame w w'.
Proof.
  unfold handleKeyDown.
  destruct (_ || _); [intros [= <- <-]; apply handlerFrame_refl|].
  destruct (String.eqb (key event) "ArrowDown");
    [intros [= <- <-]; repeat split; auto|].
  destruct (String.eqb (key event) "ArrowUp");
    [intros [= <- <-]; repeat split; auto|].
  destruct (String.eqb (key event) "Enter").
  { destruct (selectedIndex w >=? 0)%Z.
    - destruct (handleSelect _ w) as [w1|] eqn:Hs; [|done].
      intros [= <- <-]. by eapply select_then_blur_frame.
    - destruct (0 <? dataLength w).
      + destruct (handleSelect _ w) as [w1|] eqn:Hs; [|done].
        intros [= <- <-]. by eapply select_then_blur_frame.
      + intros [= <- <-]. apply blur_frame. }
  destruct (String.eqb (key event) "Escape");
    [|intros [= <- <-]; apply handlerFrame_refl].
  intros [= <- <-]. apply (blur_frame (set_selectedIndex (-1) (set_isFocused false w))).
Qed.

Lemma update_requests w v : requests (update w v) = requests v.
Proof. by destruct (update_view w v) as (_ & _ & _ & _ & -> & _). Qed.

Lemma dispatch_requests e w w' :
  isElapse e = false → dispatch e w = Normal w' → requests w' = requests w.
Proof.
  destruct e as [text|k| | |i|ms|l]; simpl; try done; intros _.
  - intros [= <-]. by rewrite update_requests.
  - destruct (handleKeyDown _ w) as [[event' w1]|] eqn:Hk; [|done].
    intros [= <-]. rewrite update_requests. by apply handleKeyDown_frame in Hk as [-> _].
  - intros [= <-]. by rewrite update_requests.
  - by intros [= <-].
  - destruct (handleSelect _ w) as [w1|] eqn:Hs; [|done].
    intros [= <-]. rewrite update_requests. by apply handleSelect_frame in Hs as [-> _].
  - intros [= <-]. by destruct (render_view (respond l w)) as (_ & _ & _ & _ & -> & _).
Qed.

(** ** The requests the widget issues *)

Lemma runTimers_forNonBlankText fuel until : ∀ w,
  consistent w → forNonBlankText (requests w) →
  forNonBlankText (requests (runTimers fuel until w)).
Proof.
  induction fuel as [|fuel IH]; intros w Hw Hreq; simpl; [done|].
  pose proof (earliest_spec (timers w)) as He.
  destruct (earliest (timers w)) as [t|]; [|done].
  destruct He as [Hin _]. destruct (due t <=? until); [|done].
  pose proof (fired_consistent (tid t) (max (now w) (due t)) w Hw) as Hf.
  fold (fired t w) in Hf |- *.
  destruct (runCallback_schedule (callback t) (fired t w)) as (_ & _ & Hrq);
    [apply Hf|].
  apply IH; [by apply runCallback_consistent|].
  rewrite Hrq. intros h [Hh|Hh]%elem_of_app; [by apply Hreq|].
  destruct Hw as ((_ & _ & Hkind) & _). specialize (Hkind t Hin).
  destruct (callback t) as [q|] eqn:Hcb; [|by apply elem_of_nil in Hh].
  simpl in Hkind. destruct Hkind as (_ & [= ->] & Hq).
  apply list_elem_of_singleton in Hh as ->. eauto.
Qed.

Lemma reachable_forNonBlankText w : reachable w → forNonBlankText (requests w).
Proof.
  induction 1 as [onSelect|e w w' Hw IH _ Hstep].
  - by intros h ?%elem_of_nil.
  - destruct (isElapse e) eqn:He.
    + destruct e; try done. injection Hstep as <-.
      apply runTimers_forNonBlankText; [by apply reachable_consistent | done].
    + by rewrite (dispatch_requests e w w' He Hstep).
Qed.

(** X8. In every reachable state, each request the widget has issued is the
    href built from some query text that is not blank: the widget never asks
    for suggestions for an empty or white-space-only text. *)
Theorem requests_never_blank (w : TypeAhead) (h : string) :
  reachable w → h ∈ requests w →
  ∃ q, h = suggestionsHref q ∧ JS.trim q ≠ "".
Proof. intros Hw Hh. by apply (reachable_forNonBlankText w Hw). Qed.

Lemma requests_never_blank_witness :
  ∃ q, "/api/suggestions?q=an" = suggestionsHref q ∧ JS.trim q ≠ "".
Proof.
  apply (requests_never_blank openWithThree).
  - apply (play_reachable [Focus; Change "an"; Elapse 300; Respond threeResults]
             (mount true)); [constructor | vm_compute; reflexivity].
  - vm_compute. left.
Defined.

(** X9. Only the passage of time issues a request: an edit, a key, a focus
    change, a click or an arriving response leaves the list of issued
    requests as it was, in any state. *)
Theorem only_timers_issue_requests (e : Event) (w w' : TypeAhead) :
  isElapse e = false → dispatch e w = Normal w' → requests w' = requests w.
Proof. apply dispatch_requests. Qed.

Lemma only_timers_issue_requests_witness :
  ∃ w', dispatch (Change "ana") typedAn = Normal w' ∧ requests w' = requests typedAn.
Proof.
  eexists. split; [reflexivity|].
  apply (only_timers_issue_requests (Change "ana") typedAn); reflexivity.
Defined.

(** X10. Every request issued by a reachable widget gets an answer from the
    loader that comes from its filtering branch: status 200, a JSON body,
    and the entries are those matching the lower-cased, trimmed text the
    request was built from; the early [[]] reply for an empty query is never
    the answer to the widget. *)
Theorem issued_requests_are_answered (w : TypeAhead) (h : string) :
  reachable w → h ∈ requests w →
  ∃ q l,
    h = suggestionsHref q
    ∧ serve h = Some (loader {| searchParams := [("q", q)] |})
    ∧ status (loader {| searchParams := [("q", q)] |}) = 200
    ∧ body (loader {| searchParams := [("q", q)] |}) = Json l
    ∧ ∀ s, s ∈ l → s ∈ fruits
                   ∧ occursIn (JS.toLowerCase (JS.trim q)) (JS.toLowerCase (value s)).
Proof.
  intros Hw Hh. destruct (reachable_forNonBlankText w Hw h Hh) as (q & -> & Hq).
  set (request := {| searchParams := [("q", q)] |}).
  assert (loader_query request = JS.toLowerCase (JS.trim q)) as Hquery
    by (unfold loader_query; simpl; apply orElse_empty).
  assert (JS.truthy (loader_query request) = true) as Ht.
  { rewrite Hquery. apply truthy_true. by rewrite toLowerCase_empty. }
  assert (serve (suggestionsHref q) = Some (loader request)) as Hserve.
  { unfold serve. destruct (hrefQuery_suggestionsHref q) as [-> ->].
    by rewrite searchParams_parse_q. }
  destruct (loader_answer request) as (l & Hl & Hsub & _ & Hall).
  rewrite Hquery in Hall. exists q, l. fold request.
  rewrite (loader_truthy _ Ht) in Hl, Hserve |- *.
  unfold response_json in Hl. cbn [body] in Hl.
  generalize dependent (JS.slice 0 10
    (List.filter
       (λ fruit, JS.includes (JS.toLowerCase (value fruit)) (loader_query request))
       fruits)).
  intros answer H1 H2.
  assert (answer = l) as -> by congruence.
  repeat split; [done | by eapply elem_of_sublist | by apply Hall].
Qed.

Lemma issued_requests_are_answered_witness :
  ∃ q l,
    "/api/suggestions?q=an" = suggestionsHref q
    ∧ serve "/api/suggestions?q=an" = Some (loader {| searchParams := [("q", q)] |})
    ∧ status (loader {| searchParams := [("q", q)] |}) = 200
    ∧ body (loader {| searchParams := [("q", q)] |}) = Json l
    ∧ ∀ s, s ∈ l → s ∈ fruits
                   ∧ occursIn (JS.toLowerCase (JS.trim q)) (JS.toLowerCase (value s)).
Proof.
  apply (issued_requests_are_answered openWithThree).
  - apply (play_reachable [Focus; Change "an"; Elapse 300; Respond threeResults]
             (mount true)); [constructor | vm_compute; reflexivity].
  - vm_compute. left.
Defined.

(** ** Handlers do not throw *)

Lemma dataAt_in_range w r (i : Z) :
  data w = Some r → (0 ≤ i < Z.of_nat (length (items r)))%Z →
  ∃ s, dataAt i w = Some s.
Proof.
  intros Hd Hi. unfold dataAt. rewrite Hd.
  assert ((0 <=? i)%Z = true) as -> by (apply Z.leb_le; lia).
  apply lookup_lt_is_Some. lia.
Qed.

Lemma handleKeyDown_returns event w :
  (∀ r, data w = Some r →
        (selectedIndex w = -1 ∨ 0 ≤ selectedIndex w < Z.of_nat (length (items r)))%Z) →
  ∃ event' w', handleKeyDown event w = Normal (event', w').
Proof.
  intros Hvalid. unfold handleKeyDown.
  destruct (negb _ || (dataLength w =? 0)) eqn:Hg; [by eauto|].
  apply orb_false_iff in Hg as [_ Hlen%Nat.eqb_neq].
  destruct (String.eqb (key event) "ArrowDown"); [by eauto|].
  destruct (String.eqb (key event) "ArrowUp"); [by eauto|].
  destruct (String.eqb (key event) "Enter").
  - assert (0 < dataLength w) as (r & Hd & Hr)%dataLength_pos by lia.
    assert (0 < length (items r)) by (destruct (items r); simpl; [done | lia]).
    assert (∀ i, (0 ≤ i < Z.of_nat (length (items r)))%Z →
                 ∃ w1, handleSelect (dataAt i w) w = Normal w1) as Hsel.
    { intros i Hi. destruct (dataAt_in_range w r i Hd Hi) as [s ->].
      destruct (handleSelect_some s w) as (w1 & -> & _). eauto. }
    destruct (Z.geb_spec (selectedIndex w) 0) as [Hset|Hnone].
    + destruct (Hsel (selectedIndex w)) as [w1 ->]; [|by eauto].
      destruct (Hvalid r Hd); lia.
    + assert ((0 <? dataLength w) = true) as -> by (apply Nat.ltb_lt; lia).
      destruct (Hsel 0%Z) as [w1 ->]; [lia | by eauto].
  - destruct (String.eqb (key event) "Escape"); by eauto.
Qed.

(** X11. The key handler never throws in a reachable state: whichever key
    is pressed, [handleKeyDown] runs to its end. In particular the entry
    Enter reads at [selectedIndex] exists, so that [handleSelect] is never
    handed undefined. *)
Theorem key_handler_never_throws (event : KeyboardEvent) (w : TypeAhead) :
  reachable w → ∃ event' w', handleKeyDown event w = Normal (event', w').
Proof.
  intros Hw. apply handleKeyDown_returns.
  intros r Hd. by apply reachable_highlight_valid.
Qed.

Lemma key_handler_never_throws_witness :
  ∃ event' w',
    handleKeyDown {| key := "Enter"; defaultPrevented := false |} openWithThree
    = Normal (event', w').
Proof.
  apply (key_handler_never_throws
           {| key := "Enter"; defaultPrevented := false |} openWithThree).
  apply (play_reachable [Focus; Change "an"; Elapse 300; Respond threeResults]
           (mount true)); [constructor | vm_compute; reflexivity].
Defined.

(** ** One debounce timer at most *)

Section PendingLoads.

Implicit Types (ts : list Timer) (t : Timer).

Local Abbreviation loadP := (λ t : Timer, isLoad (callback t) = true).

Lemma filter_noLoad ts : noLoad ts → filter loadP ts = [].
Proof.
  induction ts as [|t ts IH]; intros Hno; [done|].
  rewrite filter_cons_False; [apply IH|].
  - intros u Hu. apply Hno. by right.
  - simpl. rewrite (Hno t); [done | by left].
Qed.

Lemma length_filter_filter (Q : Timer → Prop) `{∀ t, Decision (Q t)} ts :
  length (filter loadP (filter Q ts)) ≤ length (filter loadP ts).
Proof.
  induction ts as [|t ts IH]; [done|].
  rewrite (filter_cons Q). destruct (decide (Q t)).
  - rewrite !(filter_cons loadP). destruct (decide (loadP t)); simpl; lia.
  - rewrite (filter_cons loadP). destruct (decide (loadP t)); simpl; lia.
Qed.

Lemma commit_pendingLoads v :
  timersOk v → length (pendingLoads v) ≤ 1 → length (pendingLoads (commit v)) ≤ 1.
Proof.
  intros Ht Hone. unfold pendingLoads.
  destruct (decide (query v = depQuery v)) as [Hq|Hq].
  - by destruct (commit_idle v) as (-> & _).
  - destruct (timersInv_cleared _ _ _ _ Ht) as [Hno _].
    assert (timers (commit v)
            = timers (set_depQuery (query v) (debounceEffect (debounceCleanup v))))
      as ->.
    { unfold commit. destruct (decide (query v = depQuery v)); [done|]. by case_decide. }
    unfold debounceEffect, debounceCleanup, setTimeout, clearTimeout.
    destruct (cleanup v) as [c|]; simpl in *;
      destruct (JS.truthy (JS.trim (query v))); simpl;
      rewrite ?filter_app, filter_noLoad by done; simpl;
      rewrite ?filter_cons_True, ?filter_nil by done; simpl; lia.
Qed.

Lemma render_pendingLoads v :
  timersOk v → length (pendingLoads v) ≤ 1 → length (pendingLoads (render v)) ≤ 1.
Proof.
  intros Ht Hone. unfold render. pose proof (commit_pendingLoads v Ht Hone).
  case_decide; [done|]. apply commit_pendingLoads; [by apply commit_timersOk | done].
Qed.

Lemma update_pendingLoads w v :
  timersOk v → length (pendingLoads v) ≤ 1 → length (pendingLoads (update w v)) ≤ 1.
Proof.
  intros Ht Hone. unfold update. case_decide; [done | by apply render_pendingLoads].
Qed.

Lemma handlerFrame_pendingLoads w w' :
  handlerFrame w w' → length (pendingLoads w') = length (pendingLoads w).
Proof.
  intros (_ & _ & _ & _ & [Ht|(t & Hcb & Ht)]); unfold pendingLoads; rewrite Ht;
    [done|].
  rewrite filter_app, filter_cons_False, filter_nil, app_nil_r; [done|].
  simpl. by rewrite Hcb.
Qed.

Lemma runTimers_pendingLoads fuel until : ∀ w,
  consistent w → length (pendingLoads w) ≤ 1 →
  length (pendingLoads (runTimers fuel until w)) ≤ 1.
Proof.
  induction fuel as [|fuel IH]; intros w Hw Hone; simpl; [done|].
  destruct (earliest (timers w)) as [t|]; [|done].
  destruct (due t <=? until); [|done].
  pose proof (fired_consistent (tid t) (max (now w) (due t)) w Hw) as Hf.
  fold (fired t w) in Hf |- *.
  destruct (runCallback_schedule (callback t) (fired t w)) as (Hts & _);
    [apply Hf|].
  apply IH; [by apply runCallback_consistent|].
  unfold pendingLoads. rewrite Hts. simpl.
  etrans; [apply length_filter_filter | exact Hone].
Qed.

Lemma dispatch_pendingLoads e w w' :
  consistent w → length (pendingLoads w) ≤ 1 → dispatch e w = Normal w' →
  length (pendingLoads w') ≤ 1.
Proof.
  intros Hw Hone. pose proof Hw as (Ht & Hr & _ & _ & Hf).
  destruct e as [text|k| | |i|ms|l]; simpl.
  - intros [= <-]. apply update_pendingLoads; [exact Ht | exact Hone].
  - destruct (handleKeyDown _ w) as [[event' w1]|] eqn:Hk; [|done].
    intros [= <-]. apply update_pendingLoads.
    + by eapply handleKeyDown_handled.
    + by rewrite (handlerFrame_pendingLoads w w1) by by eapply handleKeyDown_frame.
  - intros [= <-]. apply update_pendingLoads; [exact Ht | exact Hone].
  - intros [= <-].
    rewrite (handlerFrame_pendingLoads w); [done|].
    repeat split. right. eexists. split; [|reflexivity]. reflexivity.
  - destruct (handleSelect _ w) as [w1|] eqn:Hs; [|done].
    intros [= <-]. apply update_pendingLoads.
    + by eapply handleSelect_handled.
    + unfold pendingLoads.
      by apply handleSelect_frame in Hs as (_ & _ & _ & _ & -> & _).
  - intros [= <-]. by apply runTimers_pendingLoads.
  - intros [= <-]. apply render_pendingLoads; [exact Ht | exact Hone].
Qed.

End PendingLoads.

(** X12. In every reachable state at most one debounce timer is waiting,
    and a waiting one is for the text the input holds now, which is not
    blank: a timer set for an older text is never left to fire. *)
Theorem one_debounce_timer (w : TypeAhead) :
  reachable w →
  length (pendingLoads w) ≤ 1
  ∧ ∀ t, t ∈ pendingLoads w →
         callback t = LoadSuggestions (query w) ∧ JS.trim (query w) ≠ "".
Proof.
  intros Hw. split.
  - induction Hw as [onSelect|e w w' Hw IH _ Hstep]; [cbv; lia|].
    eapply dispatch_pendingLoads; [by apply reachable_consistent | done | done].
  - apply reachable_consistent in Hw as ((_ & _ & Hkind) & _ & Hq & _).
    intros t [Hl Hin]%list_elem_of_filter. specialize (Hkind t Hin).
    rewrite Hl, Hq in Hkind. tauto.
Qed.

Lemma one_debounce_timer_witness :
  length (pendingLoads typedAn) ≤ 1
  ∧ ∀ t, t ∈ pendingLoads typedAn →
         callback t = LoadSuggestions (query typedAn) ∧ JS.trim (query typedAn) ≠ "".
Proof.
  apply (one_debounce_timer typedAn).
  apply (play_reachable [Focus; Change "an"; Elapse 100] (mount true));
    [constructor | vm_compute; reflexivity].
Defined.

(** ** Whatever changes the query text starts the debounce *)

Lemma runCallback_keeps cb w :
  hasOnSelect (runCallback cb w) = hasOnSelect w
  ∧ query (runCallback cb w) = query w
  ∧ inputFocused (runCallback cb w) = inputFocused w
  ∧ selected (runCallback cb w) = selected w.
Proof.
  destruct cb as [q|]; simpl.
  - by destruct (render_view (fetcher_load (suggestionsHref q) w))
      as (-> & _ & -> & _ & _ & _ & _ & -> & ->).
  - by destruct (update_view w (set_isFocused false w))
      as (-> & _ & -> & _ & _ & _ & _ & -> & ->).
Qed.

Lemma runTimers_keeps fuel until : ∀ w,
  hasOnSelect (runTimers fuel until w) = hasOnSelect w
  ∧ query (runTimers fuel until w) = query w
  ∧ inputFocused (runTimers fuel until w) = inputFocused w
  ∧ selected (runTimers fuel until w) = selected w.
Proof.
  induction fuel as [|fuel IH]; intros w; simpl; [done|].
  destruct (earliest (timers w)) as [t|]; [|done].
  destruct (due t <=? until); [|done].
  destruct (IH (runCallback (callback t)
                  (set_now (max (now w) (due t)) (clearTimeout (tid t) w))))
    as (-> & -> & -> & ->).
  by destruct (runCallback_keeps (callback t)
                 (set_now (max (now w) (due t)) (clearTimeout (tid t) w)))
    as (-> & -> & -> & ->).
Qed.

Lemma changed_query_rendered w v :
  consistent w → handled w v → requests v = requests w → query v ≠ query w →
  consistent (update w v) ∧ afterEdit (update w v)
  ∧ requests (update w v) = requests w ∧ query (update w v) = query v.
Proof.
  intros Hw Hv Hreq Hne. pose proof Hw as (_ & _ & Hdq & _).
  pose proof Hv as (Ht & Hr & (Hdq' & _) & _).
  split; [by apply update_consistent|].
  assert (update w v = render v) as ->.
  { unfold update. rewrite decide_False; [done | tauto]. }
  destruct (render_view v) as (_ & _ & -> & _ & -> & _).
  repeat split; [|done].
  apply render_changed; [done | congruence].
Qed.

Lemma dispatch_changed_query e w w' :
  consistent w → dispatch e w = Normal w' → query w' ≠ query w →
  consistent w' ∧ afterEdit w' ∧ requests w' = requests w.
Proof.
  intros Hw Hstep Hne. pose proof Hw as (Ht & Hr & _ & _ & Hf).
  assert (∀ v, handled w v → requests v = requests w → w' = update w v →
               consistent w' ∧ afterEdit w' ∧ requests w' = requests w) as Hcase.
  { intros v Hv Hreq ->.
    destruct (changed_query_rendered w v Hw Hv Hreq) as (? & ? & ? & _); [|done].
    by destruct (update_view w v) as (_ & _ & <- & _). }
  destruct e as [text|k| | |i|ms|l]; simpl in Hstep.
  - injection Hstep as <-. apply (Hcase (set_query text w)); [|reflexivity..].
    split; [done|]. split; [done|]. split; [by repeat split | done].
  - destruct (handleKeyDown _ w) as [[event' w1]|] eqn:Hk; [|done].
    injection Hstep as <-.
    apply (Hcase w1); [by eapply handleKeyDown_handled | | done].
    by apply handleKeyDown_frame in Hk as [-> _].
  - injection Hstep as <-. destruct Hne.
    by destruct (update_view w (set_isFocused true (set_inputFocused true w)))
      as (_ & _ & -> & _).
  - by injection Hstep as <-.
  - destruct (handleSelect _ w) as [w1|] eqn:Hs; [|done].
    injection Hstep as <-.
    apply (Hcase w1); [by eapply handleSelect_handled | | done].
    by apply handleSelect_frame in Hs as [-> _].
  - injection Hstep as <-. destruct Hne. apply runTimers_keeps.
  - injection Hstep as <-. destruct Hne.
    by destruct (render_view (respond l w)) as (_ & _ & -> & _).
Qed.

(** X13. Whatever event changes the query text of a reachable widget (an
    edit, or a selection by Enter or by click, which writes the selected
    value into the input) starts the debounce for the new text: of itself
    the event issues nothing, and a pause after it issues exactly one
    request, for the new text, once it reaches 300 ms and if that text is
    not blank. *)
Theorem query_change_starts_debounce (e : Event) (w w' : TypeAhead) (ms : nat) :
  reachable w → dispatch e w = Normal w' → query w' ≠ query w →
  requests w' = requests w
  ∧ requests (elapse ms w')
    = requests w ++ (if (300 <=? ms) && JS.truthy (JS.trim (query w'))
                     then [suggestionsHref (query w')] else []).
Proof.
  intros Hw%reachable_consistent Hstep Hne.
  destruct (dispatch_changed_query e w w' Hw Hstep Hne) as (Hw' & Ha & Hreq).
  split; [done|]. by rewrite (elapse_after_edit w' ms Hw' Ha), Hreq.
Qed.

Lemma query_change_starts_debounce_witness :
  ∃ w', dispatch (KeyDown "Enter") openWithThree = Normal w'
        ∧ query w' = "Banana"
        ∧ requests w' = requests openWithThree
        ∧ requests (elapse 300 w')
          = requests openWithThree
            ++ (if (300 <=? 300) && JS.truthy (JS.trim (query w'))
                then [suggestionsHref (query w')] else []).
Proof.
  eexists. split; [vm_compute; reflexivity|]. split; [reflexivity|].
  apply (query_change_starts_debounce (KeyDown "Enter") openWithThree _ 300).
  - apply (play_reachable [Focus; Change "an"; Elapse 300; Respond threeResults]
             (mount true)); [constructor | vm_compute; reflexivity].
  - vm_compute. reflexivity.
  - vm_compute. discriminate.
Defined.

(** ** The second half of the highlight invariant *)

(** X14. When the answer to the load in flight arrives in a reachable
    widget, the results on display and the results the router holds become
    the array of the answer, the fetcher is idle, and the highlight goes
    back to -1; the query text and the list of issued requests stay as they
    were. *)
Theorem response_replaces_results (w : TypeAhead) (l : list Suggestion) :
  reachable w → enabled (Respond l) w = true →
  ∃ w', dispatch (Respond l) w = Normal w'
        ∧ (items <$> data w') = Some l
        ∧ held w' = data w'
        ∧ state w' = Idle
        ∧ selectedIndex w' = (-1)%Z
        ∧ query w' = query w
        ∧ requests w' = requests w.
Proof.
  intros Hw _. eexists. split; [reflexivity|].
  destruct (respond_resets_highlight w l _ Hw eq_refl) as [Hi Hd].
  destruct (render_view (respond l w)) as (_ & _ & Hq & Hst & Hr & _).
  destruct (render_idle (respond l w)) as (_ & _ & _ & _ & Hda).
  { by apply reachable_consistent in Hw as (_ & _ & ? & _). }
  split; [done|]. split; [by rewrite render_held, Hda|]. repeat split; done.
Qed.

Lemma response_replaces_results_witness :
  ∃ w', dispatch (Respond threeResults) awaitingAn = Normal w'
        ∧ (items <$> data w') = Some threeResults
        ∧ held w' = data w'
        ∧ state w' = Idle
        ∧ selectedIndex w' = (-1)%Z
        ∧ query w' = query awaitingAn
        ∧ requests w' = requests awaitingAn.
Proof.
  apply (response_replaces_results awaitingAn threeResults).
  - apply (play_reachable [Focus; Change "an"; Elapse 300] (mount true));
      [constructor | vm_compute; reflexivity].
  - vm_compute. reflexivity.
Defined.

Lemma commit_lower_bound v :
  (-1 ≤ selectedIndex v)%Z → (-1 ≤ selectedIndex (commit v))%Z.
Proof. destruct (commit_index v) as [-> | ->]; lia. Qed.

Lemma update_lower_bound w v :
  (-1 ≤ selectedIndex v)%Z → (-1 ≤ selectedIndex (update w v))%Z.
Proof. destruct (update_index w v) as [-> | ->]; lia. Qed.

Lemma render_lower_bound v :
  (-1 ≤ selectedIndex v)%Z → (-1 ≤ selectedIndex (render v))%Z.
Proof. destruct (render_index v) as [-> | ->]; lia. Qed.

Lemma handleKeyDown_lower_bound event w event' w' :
  handleKeyDown event w = Normal (event', w') →
  (-1 ≤ selectedIndex w)%Z → (-1 ≤ selectedIndex w')%Z.
Proof.
  unfold handleKeyDown. intros Hk Hi. revert Hk.
  destruct (_ || _); [by intros [= <- <-]|].
  destruct (String.eqb (key event) "ArrowDown").
  { intros [= <- <-]. simpl. destruct (_ <? _)%Z; lia. }
  destruct (String.eqb (key event) "ArrowUp").
  { intros [= <- <-]. simpl. destruct (Z.gtb_spec (selectedIndex w) 0); lia. }
  assert (∀ o w1, handleSelect o w = Normal w1 → selectedIndex (blur w1) = (-1)%Z)
    as Hsel.
  { intros [s|] w1; [|done]. destruct (handleSelect_some s w) as (w2 & -> & _ & _ & Hi2 & _).
    intros [= <-]. by destruct (blur_fields w2) as (_ & _ & -> & _). }
  destruct (String.eqb (key event) "Enter").
  { destruct (selectedIndex w >=? 0)%Z.
    - destruct (handleSelect _ w) as [w1|] eqn:Hs; [|done].
      intros [= <- <-]. rewrite (Hsel _ _ Hs). lia.
    - destruct (0 <? dataLength w).
      + destruct (handleSelect _ w) as [w1|] eqn:Hs; [|done].
        intros [= <- <-]. rewrite (Hsel _ _ Hs). lia.
      + intros [= <- <-]. by destruct (blur_fields w) as (_ & _ & -> & _). }
  destruct (String.eqb (key event) "Escape"); [|by intros [= <- <-]].
  intros [= <- <-].
  destruct (blur_fields (set_selectedIndex (-1) (set_isFocused false w)))
    as (_ & _ & -> & _). simpl. lia.
Qed.

Lemma runTimers_lower_bound fuel until : ∀ w,
  (-1 ≤ selectedIndex w)%Z → (-1 ≤ selectedIndex (runTimers fuel until w))%Z.
Proof.
  induction fuel as [|fuel IH]; intros w Hi; simpl; [done|].
  destruct (earliest (timers w)) as [t|]; [|done].
  destruct (due t <=? until); [|done].
  apply IH. destruct (callback t); simpl;
    [by apply render_lower_bound | by apply update_lower_bound].
Qed.

Lemma reachable_lower_bound w : reachable w → (-1 ≤ selectedIndex w)%Z.
Proof.
  induction 1 as [onSelect|e w w' _ IH _ Hstep]; [done|].
  destruct e as [text|k| | |i|ms|l]; simpl in Hstep.
  - injection Hstep as <-. by apply update_lower_bound.
  - destruct (handleKeyDown _ w) as [[event' w1]|] eqn:Hk; [|done].
    injection Hstep as <-. apply update_lower_bound.
    by eapply handleKeyDown_lower_bound.
  - injection Hstep as <-. by apply update_lower_bound.
  - by injection Hstep as <-.
  - destruct (handleSelect _ w) as [w1|] eqn:Hs; [|done].
    injection Hstep as <-. apply update_lower_bound.
    destruct (dataAt _ w) as [s|]; [|done].
    destruct (handleSelect_some s w) as (w2 & Hs2 & _ & _ & Hi2 & _).
    rewrite Hs2 in Hs. injection Hs as <-. lia.
  - injection Hstep as <-. by apply runTimers_lower_bound.
  - injection Hstep as <-. by apply render_lower_bound.
Qed.

(** X15. In every reachable state the highlight is -1 or more, and while
    results are stored it is below their number: it is "none" or the index
    of an entry that exists. *)
Theorem highlight_within_results (w : TypeAhead) :
  reachable w →
  (-1 ≤ selectedIndex w)%Z
  ∧ ∀ r, data w = Some r → (selectedIndex w < Z.of_nat (length (items r)))%Z.
Proof.
  intros Hw. split; [by apply reachable_lower_bound|].
  intros r Hd. destruct (reachable_highlight_valid w r Hw Hd); lia.
Qed.

Lemma highlight_within_results_witness :
  (-1 ≤ selectedIndex openWithThree)%Z
  ∧ ∀ r, data openWithThree = Some r →
         (selectedIndex openWithThree < Z.of_nat (length (items r)))%Z.
Proof.
  apply (highlight_within_results openWithThree).
  apply (play_reachable [Focus; Change "an"; Elapse 300; Respond threeResults]
           (mount true)); [constructor | vm_compute; reflexivity].
Defined.

(** ** Losing the focus *)

Lemma runTimers_unfocus fuel until : ∀ w,
  consistent w → length (timers w) < fuel →
  (isFocused w = false
   ∨ ∃ u, u ∈ timers w ∧ callback u = Unfocus ∧ due u ≤ until) →
  isFocused (runTimers fuel until w) = false.
Proof.
  induction fuel as [|fuel IH]; intros w Hw Hfuel Hclose; simpl; [lia|].
  pose proof Hw as ((_ & _ & Hkind) & _).
  pose proof (earliest_spec (timers w)) as He.
  destruct (earliest (timers w)) as [t|].
  - destruct He as [Hin Hmin].
    destruct (Nat.leb_spec (due t) until) as [Hdue|Hlate].
    + pose proof (fired_consistent (tid t) (max (now w) (due t)) w Hw) as Hf.
      fold (fired t w) in Hf |- *.
      destruct (runCallback_schedule (callback t) (fired t w)) as (Hts & _);
        [apply Hf|].
      apply IH; [by apply runCallback_consistent | |].
      * rewrite Hts. simpl.
        assert (length (filter (λ x, tid x ≠ tid t) (timers w)) < length (timers w))
          by (apply (length_filter_lt _ _ t Hin); tauto).
        lia.
      * pose proof (Hkind t Hin) as Ht.
        destruct (callback t) as [q|] eqn:Hcb; simpl in *.
        -- destruct (render_view (fetcher_load (suggestionsHref q) (fired t w)))
             as (_ & -> & _).
           destruct Hclose as [Hoff|(u & Hu & Hucb & Hudue)]; [by left|].
           right. exists u. rewrite Hts. simpl. split; [|done].
           apply list_elem_of_filter. split; [|done].
           pose proof (Hkind u Hu) as Hk. rewrite Hucb in Hk. simpl in Hk.
           destruct Ht as [Hc _]. congruence.
        -- left.
           by destruct (update_view (fired t w) (set_isFocused false (fired t w)))
             as (_ & -> & _).
    + simpl. destruct Hclose as [Hoff|(u & Hu & _ & Hudue)]; [done|].
      specialize (Hmin u Hu). lia.
  - simpl. destruct Hclose as [Hoff|(u & Hu & _)]; [done|].
    rewrite He in Hu. by apply elem_of_nil in Hu.
Qed.

Lemma runTimers_stays fuel until u : ∀ w,
  consistent w → u ∈ timers w → until < due u → uniqueId u (timers w) →
  u ∈ timers (runTimers fuel until w).
Proof.
  induction fuel as [|fuel IH]; intros w Hw Hu Hlate Huniq; simpl; [done|].
  pose proof (earliest_spec (timers w)) as He.
  destruct (earliest (timers w)) as [t|]; [|done].
  destruct He as [Hin _].
  destruct (Nat.leb_spec (due t) until) as [Hdue|]; [|done].
  pose proof (fired_consistent (tid t) (max (now w) (due t)) w Hw) as Hf.
  fold (fired t w) in Hf |- *.
  destruct (runCallback_schedule (callback t) (fired t w)) as (Hts & _);
    [apply Hf|].
  apply IH; [by apply runCallback_consistent | | done |].
  - rewrite Hts. simpl. apply list_elem_of_filter. split; [|done].
    intros Heq. assert (t = u) as -> by (apply Huniq; [done | congruence]). lia.
  - rewrite Hts. simpl. intros v [_ Hv]%list_elem_of_filter. by apply Huniq.
Qed.

Lemma blur_registers w :
  consistent w →
  let u := {| tid := nextTid w; due := now w + 200; callback := Unfocus |} in
  let w1 := onBlur (set_inputFocused false w) in
  consistent w1 ∧ u ∈ timers w1 ∧ uniqueId u (timers w1)
  ∧ now w1 = now w ∧ inputFocused w1 = false.
Proof.
  intros Hw u w1. pose proof Hw as ((Hid & _) & _).
  split; [by apply (dispatch_consistent Blur w)|].
  unfold w1, onBlur, setTimeout. simpl. repeat split.
  - apply elem_of_app. right. by apply list_elem_of_singleton.
  - intros t [Ht | ->%list_elem_of_singleton]%elem_of_app Heq; [|done].
    specialize (Hid t Ht). simpl in Heq. lia.
Qed.

(** X16. Losing the focus closes the dropdown after the grace delay: 200 ms
    after a blur of a reachable widget, with no other event in between,
    [isFocused] is false and the dropdown is hidden. *)
Theorem blur_closes_after_grace (w w1 : TypeAhead) (ms : nat) :
  reachable w → dispatch Blur w = Normal w1 → 200 ≤ ms →
  isFocused (elapse ms w1) = false
  ∧ dropdownVisible (elapse ms w1) = false
  ∧ inputFocused (elapse ms w1) = false.
Proof.
  intros Hw%reachable_consistent [= <-] Hms.
  destruct (blur_registers w Hw) as (Hw1 & Hu & _ & Hnow & Hfoc).
  assert (isFocused (elapse ms (onBlur (set_inputFocused false w))) = false) as Hoff.
  { apply runTimers_unfocus; [done | lia|].
    right. eexists. split; [exact Hu|]. split; [done|]. simpl. lia. }
  split; [done|]. split; [by apply not_visible_unfocused|].
  unfold elapse. by destruct (runTimers_keeps
    (S (length (timers (onBlur (set_inputFocused false w)))))
    (now (onBlur (set_inputFocused false w)) + ms)
    (onBlur (set_inputFocused false w))) as (_ & _ & -> & _).
Qed.

Lemma blur_closes_after_grace_witness :
  ∃ w1, dispatch Blur openWithThree = Normal w1
        ∧ isFocused w1 = true
        ∧ isFocused (elapse 200 w1) = false
        ∧ dropdownVisible (elapse 200 w1) = false
        ∧ inputFocused (elapse 200 w1) = false.
Proof.
  eexists. split; [reflexivity|]. split; [reflexivity|].
  apply (blur_closes_after_grace openWithThree _ 200).
  - apply (play_reachable [Focus; Change "an"; Elapse 300; Respond threeResults]
             (mount true)); [constructor | vm_compute; reflexivity].
  - reflexivity.
  - lia.
Defined.

(** X17. The timer set by a blur is never cancelled: when the focus comes
    back within the 200 ms, the timer still runs at its time and closes the
    dropdown, although the input has the focus. *)
Theorem refocus_does_not_cancel_close (w w' : TypeAhead) (d1 d2 : nat) :
  reachable w →
  play [Blur; Elapse d1; Focus; Elapse d2] w = Some w' →
  d1 < 200 → 200 ≤ d1 + d2 →
  inputFocused w' = true ∧ isFocused w' = false ∧ dropdownVisible w' = false.
Proof.
  intros Hw%reachable_consistent Hplay Hd1 Hd2. simpl in Hplay.
  destruct (inputFocused w); [|done].
  destruct (blur_registers w Hw) as (Hw1 & Hu & Huniq & Hnow & Hfoc).
  set (u := {| tid := nextTid w; due := now w + 200; callback := Unfocus |}) in *.
  set (w1 := onBlur (set_inputFocused false w)) in *.
  pose proof (runTimers_consistent (S (length (timers w1))) (now w1 + d1) w1 Hw1) as Hw2.
  fold (elapse d1 w1) in Hw2.
  assert (u ∈ timers (elapse d1 w1)) as Hu2.
  { apply runTimers_stays; [done | done | simpl; lia | done]. }
  destruct (elapse_done w1 d1 Hw1) as [Hnow2 _].
  set (w2 := elapse d1 w1) in *.
  destruct (negb (inputFocused w2)); [|done].
  set (v := set_isFocused true (set_inputFocused true w2)) in *.
  assert (consistent (update w2 v)) as Hw3.
  { apply (dispatch_consistent Focus w2); [done | reflexivity]. }
  destruct Hw2 as (_ & _ & Hdq & _).
  destruct (update_idle w2 v Hdq) as (Hts & _).
  destruct (update_view w2 v) as (_ & _ & _ & _ & _ & _ & Hnow3 & Hin3 & _).
  injection Hplay as <-.
  assert (isFocused (elapse d2 (update w2 v)) = false) as Hoff.
  { apply runTimers_unfocus; [done | lia|].
    right. exists u. rewrite Hts. split; [exact Hu2|]. split; [done|].
    rewrite Hnow3. simpl. lia. }
  split; [|split; [done | by apply not_visible_unfocused]].
  unfold elapse. destruct (runTimers_keeps
    (S (length (timers (update w2 v)))) (now (update w2 v) + d2) (update w2 v))
    as (_ & _ & -> & _). by rewrite Hin3.
Qed.

Lemma refocus_does_not_cancel_close_witness :
  ∃ w', play [Blur; Elapse 50; Focus; Elapse 150] openWithThree = Some w'
        ∧ inputFocused w' = true ∧ isFocused w' = false
        ∧ dropdownVisible w' = false.
Proof.
  eexists. split; [vm_compute; reflexivity|].
  apply (refocus_does_not_cancel_close openWithThree _ 50 150).
  - apply (play_reachable [Focus; Change "an"; Elapse 300; Respond threeResults]
             (mount true)); [constructor | vm_compute; reflexivity].
  - vm_compute. reflexivity.
  - lia.
  - lia.
Defined.

(** ** The keys the handler knows *)

(** X18. With the guard open (a query that is not blank, results that are
    not empty), the handler prevents the default action for ArrowDown,
    ArrowUp, Enter and Escape and for no other key; any other key leaves the
    component untouched. *)
Theorem default_prevented_for_four_keys
    (event event' : KeyboardEvent) (w w' : TypeAhead) :
  JS.trim (query w) ≠ "" → 0 < dataLength w →
  handleKeyDown event w = Normal (event', w') →
  key event' = key event
  ∧ defaultPrevented event' = handledKey (key event) || defaultPrevented event
  ∧ (handledKey (key event) = false → w' = w).
Proof.
  intros Hq Hl. pose proof (guard_open w Hq Hl) as Hg.
  unfold handleKeyDown, handledKey. rewrite Hg.
  destruct (String.eqb (key event) "ArrowDown"); [by intros [= <- <-]|].
  destruct (String.eqb (key event) "ArrowUp"); [by intros [= <- <-]|].
  destruct (String.eqb (key event) "Enter").
  { destruct (if (selectedIndex w >=? 0)%Z then _ else _) as [w1|]; [|done].
    by intros [= <- <-]. }
  destruct (String.eqb (key event) "Escape"); by intros [= <- <-].
Qed.

Lemma default_prevented_for_four_keys_witness :
  (∃ event' w',
     handleKeyDown {| key := "Escape"; defaultPrevented := false |} openWithThree
     = Normal (event', w')
     ∧ defaultPrevented event' = true)
  ∧ (∃ event' w',
       handleKeyDown {| key := "Tab"; defaultPrevented := false |} openWithThree
       = Normal (event', w')
       ∧ defaultPrevented event' = false ∧ w' = openWithThree).
Proof.
  split.
  - eexists. eexists. split; [vm_compute; reflexivity|].
    eapply (default_prevented_for_four_keys
              {| key := "Escape"; defaultPrevented := false |} _ openWithThree).
    + vm_compute. discriminate.
    + vm_compute. lia.
    + vm_compute. reflexivity.
  - eexists. eexists. split; [vm_compute; reflexivity|].
    destruct (default_prevented_for_four_keys
                {| key := "Tab"; defaultPrevented := false |}
                {| key := "Tab"; defaultPrevented := false |}
                openWithThree openWithThree) as (_ & Hp & Hw).
    + vm_compute. discriminate.
    + vm_compute. lia.
    + vm_compute. reflexivity.
    + split; [reflexivity|]. vm_compute. reflexivity.
Defined.

(** ** Pressing an arrow several times *)

Lemma arrowUp_dispatch w :
  JS.trim (query w) ≠ "" → 0 < dataLength w → settled w →
  ∃ w', dispatch (KeyDown "ArrowUp") w = Normal w'
        ∧ selectedIndex w'
          = (if selectedIndex w >? 0 then selectedIndex w - 1 else selectedIndex w)%Z
        ∧ query w' = query w ∧ data w' = data w.
Proof.
  intros Hq Hl Hs. pose proof (guard_open w Hq Hl) as Hg.
  apply dataLength_pos in Hl as (r & Hd & _).
  unfold dispatch, handleKeyDown. simpl query. rewrite Hg. simpl.
  set (v := set_selectedIndex _ w). exists (update w v).
  split; [done|]. split.
  { apply update_settled_index. simpl. by rewrite Hd, (Hs r Hd). }
  split.
  { by destruct (update_view w v) as (_ & _ & -> & _). }
  by rewrite update_keeps_data.
Qed.

Lemma dataLength_same w w' : data w' = data w → dataLength w' = dataLength w.
Proof. unfold dataLength. by intros ->. Qed.

(** X19. ArrowDown pressed [k] times in a row, from a reachable state with
    the guard open and [n] results: the highlight ends at the smaller of its
    start plus [k] and [n - 1]; on the way the results and the query text do
    not change. From the reset state -1 it takes [n] presses to reach the
    last entry. *)
Theorem arrow_down_repeated (k : nat) : ∀ (w w' : TypeAhead),
  reachable w → JS.trim (query w) ≠ "" → 0 < dataLength w →
  play (presses k "ArrowDown") w = Some w' →
  selectedIndex w'
  = Z.min (selectedIndex w + Z.of_nat k) (Z.of_nat (dataLength w) - 1)
  ∧ data w' = data w ∧ query w' = query w.
Proof.
  induction k as [|k IH]; intros w w' Hw Hq Hl.
  - intros [= <-]. split; [|done].
    pose proof Hl as (r & Hd & _)%dataLength_pos.
    destruct (reachable_highlight_valid w r Hw Hd);
      unfold dataLength; rewrite Hd; lia.
  - unfold presses. rewrite replicate_S. fold (presses k "ArrowDown").
    cbn [play]. destruct (enabled (KeyDown "ArrowDown") w) eqn:Hen; [|done].
    pose proof (reachable_consistent w Hw) as (_ & _ & _ & Hs & _).
    destruct (arrowDown_dispatch w Hq Hl Hs) as (w1 & Hstep & Hi & Hq1 & Hd1 & _).
    rewrite Hstep. intros Hplay.
    pose proof (dataLength_same w w1 Hd1) as Hl1.
    destruct (IH w1 w') as (-> & -> & ->);
      [by eapply reachable_step | congruence | lia | done |].
    split; [|done]. rewrite Hi, Hl1.
    pose proof Hl as (r & Hd & _)%dataLength_pos.
    pose proof (reachable_highlight_valid w r Hw Hd) as Hv.
    unfold dataLength in *. rewrite Hd in *.
    destruct (Z.ltb_spec (selectedIndex w) (Z.of_nat (length (items r)) - 1)); lia.
Qed.

Lemma arrow_down_repeated_witness :
  ∃ w', play (presses 5 "ArrowDown") openWithThree = Some w'
        ∧ selectedIndex w'
          = Z.min (selectedIndex openWithThree + Z.of_nat 5)
                  (Z.of_nat (dataLength openWithThree) - 1)
        ∧ data w' = data openWithThree ∧ query w' = query openWithThree.
Proof.
  eexists. split; [vm_compute; reflexivity|].
  apply (arrow_down_repeated 5 openWithThree).
  - apply (play_reachable [Focus; Change "an"; Elapse 300; Respond threeResults]
             (mount true)); [constructor | vm_compute; reflexivity].
  - vm_compute. discriminate.
  - vm_compute. lia.
  - vm_compute. reflexivity.
Defined.

(** X20. ArrowUp pressed [k] times in a row, from a reachable state with the
    guard open: a highlight at [i] >= 0 ends at the larger of [i - k] and 0,
    and no highlight (-1) stays none. ArrowUp never takes the highlight off
    the list once an entry is highlighted. *)
Theorem arrow_up_repeated (k : nat) : ∀ (w w' : TypeAhead),
  reachable w → JS.trim (query w) ≠ "" → 0 < dataLength w →
  play (presses k "ArrowUp") w = Some w' →
  selectedIndex w'
  = (if selectedIndex w <? 0 then selectedIndex w
     else Z.max (selectedIndex w - Z.of_nat k) 0)%Z
  ∧ data w' = data w ∧ query w' = query w.
Proof.
  induction k as [|k IH]; intros w w' Hw Hq Hl.
  - intros [= <-]. split; [|done]. destruct (Z.ltb_spec (selectedIndex w) 0); lia.
  - unfold presses. rewrite replicate_S. fold (presses k "ArrowUp").
    cbn [play]. destruct (enabled (KeyDown "ArrowUp") w) eqn:Hen; [|done].
    pose proof (reachable_consistent w Hw) as (_ & _ & _ & Hs & _).
    destruct (arrowUp_dispatch w Hq Hl Hs) as (w1 & Hstep & Hi & Hq1 & Hd1).
    rewrite Hstep. intros Hplay.
    pose proof (dataLength_same w w1 Hd1) as Hl1.
    destruct (IH w1 w') as (-> & -> & ->);
      [by eapply reachable_step | congruence | lia | done |].
    split; [|done]. rewrite Hi.
    pose proof (reachable_lower_bound w Hw).
    destruct (Z.gtb_spec (selectedIndex w) 0);
      destruct (Z.ltb_spec (selectedIndex w) 0);
      destruct (Z.ltb_spec (selectedIndex w - 1) 0); lia.
Qed.

Lemma arrow_up_repeated_witness :
  ∃ w', play (presses 4 "ArrowUp") openWithThree = Some w'
        ∧ selectedIndex w'
          = (if selectedIndex openWithThree <? 0 then selectedIndex openWithThree
             else Z.max (selectedIndex openWithThree - Z.of_nat 4) 0)%Z
        ∧ data w' = data openWithThree ∧ query w' = query openWithThree.
Proof.
  eexists. split; [vm_compute; reflexivity|].
  apply (arrow_up_repeated 4 openWithThree).
  - apply (play_reachable [Focus; Change "an"; Elapse 300; Respond threeResults]
             (mount true)); [constructor | vm_compute; reflexivity].
  - vm_compute. discriminate.
  - vm_compute. lia.
  - vm_compute. reflexivity.
Defined.

(** ** The host page *)

Lemma handleKeyDown_selected event w event' w1 :
  handleKeyDown event w = Normal (event', w1) →
  selected w1 = selected w
  ∨ ∃ s, selected w1 = selected w ++ [s] ∧ query w1 = value s.
Proof.
  unfold handleKeyDown.
  assert (∀ o w2, handleSelect o w = Normal w2 →
                  selected (blur w2) = selected w
                  ∨ ∃ s, selected (blur w2) = selected w ++ [s]
                         ∧ query (blur w2) = value s) as Hsel.
  { intros [s|] w2; [|done].
    destruct (handleSelect_some s w) as (w3 & -> & Hq & _ & _ & Hs).
    intros [= <-]. destruct (blur_fields w3) as (_ & -> & _ & _ & -> & _).
    rewrite Hs, Hq. destruct (hasOnSelect w); [right; eauto | left].
    by rewrite app_nil_r. }
  destruct (_ || _); [intros [= <- <-]; by left|].
  destruct (String.eqb (key event) "ArrowDown"); [intros [= <- <-]; by left|].
  destruct (String.eqb (key event) "ArrowUp"); [intros [= <- <-]; by left|].
  destruct (String.eqb (key event) "Enter").
  { destruct (selectedIndex w >=? 0)%Z.
    - destruct (handleSelect _ w) as [w2|] eqn:Hs; [|done].
      intros [= <- <-]. by eapply Hsel.
    - destruct (0 <? dataLength w).
      + destruct (handleSelect _ w) as [w2|] eqn:Hs; [|done].
        intros [= <- <-]. by eapply Hsel.
      + intros [= <- <-]. left. by destruct (blur_fields w) as (_ & _ & _ & _ & -> & _). }
  destruct (String.eqb (key event) "Escape"); [|intros [= <- <-]; by left].
  intros [= <- <-]. left.
  by destruct (blur_fields (set_selectedIndex (-1) (set_isFocused false w)))
    as (_ & _ & _ & _ & -> & _).
Qed.

Lemma update_selected_query w v :
  selected (update w v) = selected v ∧ query (update w v) = query v.
Proof. by destruct (update_view w v) as (_ & _ & -> & _ & _ & _ & _ & _ & ->). Qed.

(** X21. The page and the widget agree after a selection: whenever an
    event makes the widget call [onSelect], it calls it once, with a
    suggestion whose value is the text the input shows afterwards, and
    [Home] shows that same value as its selected value and has logged the
    suggestion. *)
Theorem page_shows_the_selection (e : Event) (w w' : TypeAhead) :
  dispatch e w = Normal w' → selected w' ≠ selected w →
  ∃ s, selected w' = selected w ++ [s]
       ∧ query w' = value s
       ∧ Home.selectedValue (Home.after w') = query w'
       ∧ Home.console (Home.after w') = Home.console (Home.after w) ++ [s].
Proof.
  intros Hstep Hne.
  assert (selected w' = selected w
          ∨ ∃ s, selected w' = selected w ++ [s] ∧ query w' = value s)
    as [?|(s & Hs & Hq)]; [|done|].
  { destruct e as [text|k| | |i|ms|l]; simpl in Hstep.
    - injection Hstep as <-. left. by destruct (update_selected_query w (set_query text w)) as [-> _].
    - destruct (handleKeyDown _ w) as [[event' w1]|] eqn:Hk; [|done].
      injection Hstep as <-. destruct (update_selected_query w w1) as [-> ->].
      by eapply handleKeyDown_selected.
    - injection Hstep as <-. left.
      by destruct (update_selected_query w (set_isFocused true (set_inputFocused true w)))
        as [-> _].
    - injection Hstep as <-. by left.
    - destruct (dataAt _ w) as [s|]; [|done].
      destruct (handleSelect_some s w) as (w1 & Hs1 & Hq & _ & _ & Hs).
      rewrite Hs1 in Hstep. injection Hstep as <-.
      destruct (update_selected_query w w1) as [-> ->]. rewrite Hs, Hq.
      destruct (hasOnSelect w); [right; eauto | left]. by rewrite app_nil_r.
    - injection Hstep as <-. left. apply runTimers_keeps.
    - injection Hstep as <-. left.
      by destruct (render_view (respond l w)) as (_ & _ & _ & _ & _ & _ & _ & _ & ->). }
  exists s. split; [done|]. split; [done|].
  unfold Home.after. rewrite Hs, foldl_snoc. simpl. by rewrite Hq.
Qed.

Lemma page_shows_the_selection_witness :
  ∃ w', dispatch (KeyDown "Enter") openWithThree = Normal w'
        ∧ ∃ s, selected w' = selected openWithThree ++ [s]
               ∧ query w' = value s
               ∧ Home.selectedValue (Home.after w') = query w'
               ∧ Home.console (Home.after w')
                 = Home.console (Home.after openWithThree) ++ [s].
Proof.
  eexists. split; [vm_compute; reflexivity|].
  apply (page_shows_the_selection (KeyDown "Enter") openWithThree).
  - vm_compute. reflexivity.
  - vm_compute. discriminate.
Defined.

(** ** The markup below the input *)

Lemma dropdown_menu w options :
  dropdown w = Menu options →
  ∃ r, data w = Some r
       ∧ options = imap (λ index suggestion,
                           {| optionKey := id suggestion;
                              ariaSelected := (selectedIndex w =? Z.of_nat index)%Z;
                              label := value suggestion |})
                        (items r).
Proof.
  unfold dropdown. destruct (negb (isFocused w)); [done|].
  destruct (negb _); [done|]. destruct (data w) as [r|]; [|done].
  destruct (_ =? 0); [done|]. destruct (isLoading w); [done|].
  intros [= <-]. by exists r.
Qed.

(** X22. The list shown in a reachable widget has one entry per result, in
    the order of the results, and marks at most one of them: none while the
    highlight is -1, and otherwise exactly the entry at the highlight, which
    is the result Enter would pick. *)
Theorem menu_marks_the_highlight (w : TypeAhead) (options : list MenuOption) :
  reachable w → dropdown w = Menu options →
  length options = dataLength w
  ∧ (∀ i o, options !! i = Some o →
            Some (label o) = value <$> dataAt (Z.of_nat i) w
            ∧ (ariaSelected o = true ↔ selectedIndex w = Z.of_nat i))
  ∧ (selectedIndex w = (-1)%Z
     ∨ ∃ o s, options !! Z.to_nat (selectedIndex w) = Some o
              ∧ ariaSelected o = true
              ∧ dataAt (selectedIndex w) w = Some s
              ∧ label o = value s).
Proof.
  intros Hw (r & Hd & ->)%dropdown_menu.
  split; [unfold dataLength; by rewrite Hd, length_imap|].
  split.
  - intros i o. rewrite list_lookup_imap.
    destruct (items r !! i) as [s|] eqn:Hi; [|done]. intros [= <-]. simpl.
    split; [|apply Z.eqb_eq].
    unfold dataAt. rewrite Hd.
    destruct (Z.leb_spec 0 (Z.of_nat i)); [|lia]. by rewrite Nat2Z.id, Hi.
  - destruct (reachable_highlight_valid w r Hw Hd) as [?|Hv]; [by left|right].
    destruct (lookup_lt_is_Some_2 (items r) (Z.to_nat (selectedIndex w)))
      as [s Hs]; [lia|].
    eexists. exists s. rewrite list_lookup_imap, Hs. simpl. split; [done|].
    split; [apply Z.eqb_eq; lia|]. split; [|done].
    unfold dataAt. rewrite Hd. by destruct (Z.leb_spec 0 (selectedIndex w)); [|lia].
Qed.

Lemma menu_marks_the_highlight_witness :
  ∃ w' options,
    play [Focus; Change "a"; Elapse 300; Change "an"; Elapse 300;
          Respond threeResults; KeyDown "ArrowDown"; KeyDown "ArrowDown"]
      (mount true) = Some w'
    ∧ dropdown w' = Menu options
    ∧ ariaSelected <$> options = [false; true; false]
    ∧ length options = dataLength w'.
Proof.
  eexists. eexists. split; [vm_compute; reflexivity|].
  split; [vm_compute; reflexivity|]. split; [vm_compute; reflexivity|].
  eapply menu_marks_the_highlight.
  - apply (play_reachable
             [Focus; Change "a"; Elapse 300; Change "an"; Elapse 300;
              Respond threeResults; KeyDown "ArrowDown"; KeyDown "ArrowDown"]
             (mount true)); [constructor | vm_compute; reflexivity].
  - vm_compute. reflexivity.
Defined.

(** X23. An empty answer leaves a stray "0" on the page: when a load is
    answered with no suggestion while the component is focused on a text
    that is not blank, the guard of the dropdown evaluates to the number 0,
    which React renders as text, although [aria-expanded] is false and no
    list is shown. *)
Theorem empty_answer_renders_zero (w w' : TypeAhead) :
  reachable w → isFocused w = true → JS.trim (query w) ≠ "" →
  dispatch (Respond []) w = Normal w' →
  dropdown w' = TextNode "0" ∧ dropdownVisible w' = false.
Proof.
  intros Hw Hf Hq Hstep.
  destruct (respond_resets_highlight w [] w' Hw Hstep) as (_ & Hd).
  injection Hstep as <-.
  destruct (render_view (respond [] w)) as (_ & Hf' & Hq' & _).
  simpl in Hf', Hq'.
  destruct (data (render (respond [] w))) as [r|] eqn:Hr; [|done].
  injection Hd as Hi.
  unfold dropdown, dropdownVisible, dataLength.
  rewrite Hr, Hf', Hq', Hf, Hi. apply truthy_true in Hq. by rewrite Hq.
Qed.

Lemma empty_answer_renders_zero_witness :
  ∃ w', play [Focus; Change "zz"; Elapse 300; Respond []] (mount true) = Some w'
        ∧ dropdown w' = TextNode "0" ∧ dropdownVisible w' = false.
Proof.
  eexists. split; [vm_compute; reflexivity|].
  eapply (empty_answer_renders_zero
            (default (mount true) (play [Focus; Change "zz"; Elapse 300] (mount true)))).
  - apply (play_reachable [Focus; Change "zz"; Elapse 300] (mount true));
      [constructor | vm_compute; reflexivity].
  - vm_compute. reflexivity.
  - vm_compute. discriminate.
  - vm_compute. reflexivity.
Defined.

(** ** The results the router holds *)










